(** * Worker-side task lifecycle of project5_2: a shallow embedding

    Sources embedded here:
    - [extend/state_synchronizer.py]  StateSynchronizer.acquire_lock / release_lock
    - [src/utils/redis_client.py]     RedisManager.heartbeat
    - [src/course_system.py]          CourseSystem._handle_task,
                                      _process_task_with_retry, _heartbeat_loop,
                                      _process_leftovers
    - [extend/task_processor.py]      TaskProcessor.safe_fetch, remove_from_processing
    - [extend/retry_manager.py]       RetryManager.should_retry, get_backoff_time

    The Redis server is modelled by the commands the code issues (SET NX EX,
    GET, DEL, EXPIRE, RPUSH, RPOPLPUSH, LREM, LINDEX).  String keys and list
    keys never share a name in this program ("lock:..." versus "tasks:..."),
    so the two kinds of keys are kept in two separate stores. *)

From Stdlib Require Import String ZArith List Bool Lia QArith Qminmax Lqa Permutation.
Import ListNotations.
Open Scope nat_scope.
Open Scope string_scope.

(* ------------------------------------------------------------------ *)
(** ** String keys with expiry: the lock records *)

Module LockStore.

(** A string key holds its value and its absolute expiry time (seconds). *)
Record lstore := mkL {
  now : Z;
  locks : string -> option (string * Z)
}.

Definition upd (f : string -> option (string * Z)) (k : string)
    (v : option (string * Z)) : string -> option (string * Z) :=
  fun k' => if String.eqb k' k then v else f k'.

(** A key is live while its expiry lies in the future. *)
Definition live (ls : lstore) (k : string) : bool :=
  match locks ls k with
  | Some (_, exp) => (now ls <? exp)%Z
  | None => false
  end.

(** [SET k v EX ex NX]: [None] is a Redis error (a non-positive expire time
    is rejected by the server), [Some (true, _)] is "OK", [Some (false, _)]
    is the nil reply of a refused conditional write. *)
Definition redis_set_nx_ex (ls : lstore) (k v : string) (ex : Z)
    : option (bool * lstore) :=
  if (ex <=? 0)%Z then None
  else if live ls k then Some (false, ls)
  else Some (true, mkL (now ls) (upd (locks ls) k (Some (v, now ls + ex)%Z))).

(** [GET k]. *)
Definition redis_get (ls : lstore) (k : string) : option string :=
  if live ls k then option_map fst (locks ls k) else None.

(** [DEL k]. *)
Definition redis_del (ls : lstore) (k : string) : lstore :=
  mkL (now ls) (upd (locks ls) k None).

(** [EXPIRE k secs] with [secs > 0]: resets the expiry of a live key, and
    does nothing when the key is absent. *)
Definition redis_expire (ls : lstore) (k : string) (secs : Z) : lstore :=
  match locks ls k with
  | Some (v, _) =>
      if live ls k then mkL (now ls) (upd (locks ls) k (Some (v, now ls + secs)%Z))
      else ls
  | None => ls
  end.

(** The passing of [d] seconds. *)
Definition tick (ls : lstore) (d : Z) : lstore := mkL (now ls + d)%Z (locks ls).

(** [StateSynchronizer.acquire_lock(resource_id, owner_id, expire_seconds)]:
    [bool(self.redis.client.set(key, owner_id, ex=expire_seconds, nx=True))],
    and [False] when the call raises. *)
Definition acquire_lock (ls : lstore) (resource_id owner_id : string)
    (expire_seconds : Z) : bool * lstore :=
  let key := "lock:" ++ resource_id in
  match redis_set_nx_ex ls key owner_id expire_seconds with
  | Some (acquired, ls') => (acquired, ls')
  | None => (false, ls)
  end.

(** [StateSynchronizer.release_lock] issues two commands: a GET, then (when
    the value read equals [owner_id]) a DEL.  [release_read] is the GET and
    the comparison, [release_finish] the conditional DEL. *)
Definition release_read (ls : lstore) (resource_id owner_id : string) : bool :=
  match redis_get ls ("lock:" ++ resource_id) with
  | Some val => String.eqb val owner_id
  | None => false
  end.

Definition release_finish (ls : lstore) (resource_id : string) (do_del : bool)
    : lstore :=
  if do_del then redis_del ls ("lock:" ++ resource_id) else ls.

Definition release_lock (ls : lstore) (resource_id owner_id : string) : lstore :=
  release_finish ls resource_id (release_read ls resource_id owner_id).

(** [RedisManager.heartbeat(task_id)]: when [task_id] is truthy, writes
    [last_update] in the state hash (a hash key, not modelled here) and
    runs [EXPIRE lock:task:{task_id} 300]. *)
Definition heartbeat (ls : lstore) (task_id : string) : lstore :=
  if String.eqb task_id "" then ls
  else redis_expire ls ("lock:task:" ++ task_id) 300.

(** [CourseSystem._heartbeat_loop]: a heartbeat, then [stop_event.wait(10)];
    [n] rounds of the loop while the event stays unset. *)
Fixpoint heartbeat_rounds (n : nat) (ls : lstore) (task_id : string) : lstore :=
  match n with
  | O => ls
  | S n' => heartbeat_rounds n' (tick (heartbeat ls task_id) 10) task_id
  end.

(** The empty store at time [t]. *)
Definition empty_at (t : Z) : lstore := mkL t (fun _ => None).

End LockStore.

(* ------------------------------------------------------------------ *)
(** ** List keys: priority queues and processing lists *)

Module Queues.

(** What [json.loads(task_json)] followed by [task_data.get('id')] yields:
    a [JSONDecodeError]; a value that is not a dict (so [.get] raises
    [AttributeError]); or a dict whose ['id'] entry is truthy ([Some id])
    or missing or falsy ([None]). *)
Inductive parsed :=
| PBad
| PNotDict
| PDict (id : option string).

(** A list element: the raw serialized bytes Redis stores, tagged with a
    ghost identity [tag] telling task records apart.  Redis compares
    elements by [raw] only; the tag is never read by the code. *)
Record item := mkItem { tag : nat; raw : string }.

(** The list keyspace: an absent key is the empty list. *)
Definition qstore := string -> list item.

Definition set_list (st : qstore) (k : string) (l : list item) : qstore :=
  fun k' => if String.eqb k' k then l else st k'.

(** [RPUSH k x]. *)
Definition rpush (st : qstore) (k : string) (x : item) : qstore :=
  set_list st k (st k ++ [x]).

(** Last element of a list and the list without it. *)
Definition unsnoc (l : list item) : option (list item * item) :=
  match rev l with
  | [] => None
  | x :: r => Some (rev r, x)
  end.

(** [RPOPLPUSH src dst]: pops the tail of [src] and pushes it at the head of
    [dst], in one command. *)
Definition rpoplpush (st : qstore) (src dst : string) : option item * qstore :=
  match unsnoc (st src) with
  | None => (None, st)
  | Some (rest, x) =>
      let st1 := set_list st src rest in
      (Some x, set_list st1 dst (x :: st1 dst))
  end.

(** [LREM k 1 v]: removes the first element (from the head) equal to [v]. *)
Fixpoint lrem1 (v : string) (l : list item) : list item :=
  match l with
  | [] => []
  | x :: r => if String.eqb (raw x) v then r else x :: lrem1 v r
  end.

Definition lrem (st : qstore) (k v : string) : qstore :=
  set_list st k (lrem1 v (st k)).

(** [LINDEX k 0]. *)
Definition lindex0 (st : qstore) (k : string) : option item :=
  hd_error (st k).

Section Fetch.

Variable parse : string -> parsed.

(** [TaskProcessor.safe_fetch(processing_queue)]: for each queue in order,
    [rpoplpush(queue, processing_queue)]; a record with a truthy id is
    returned as [(task_id, task_data, queue, task_json)] (the parsed data is
    [parse task_json]); an empty string fails the [if task_json:] test and is
    skipped unparsed (it stays in the processing list); invalid JSON is
    removed with [lrem]; an id-less dict is skipped; a non-dict makes [.get]
    raise, caught by the outer handler, which returns [None]. *)
Fixpoint safe_fetch_from (queues : list string) (pq : string) (st : qstore)
    : option (string * string * string) * qstore :=
  match queues with
  | [] => (None, st)
  | queue :: rest =>
      match rpoplpush st queue pq with
      | (None, st1) => safe_fetch_from rest pq st1
      | (Some x, st1) =>
          if String.eqb (raw x) "" then safe_fetch_from rest pq st1
          else
          match parse (raw x) with
          | PDict (Some task_id) => (Some (task_id, queue, raw x), st1)
          | PDict None => safe_fetch_from rest pq st1
          | PBad => safe_fetch_from rest pq (lrem st1 pq (raw x))
          | PNotDict => (None, st1)
          end
      end
  end.

(** The default queue order of [TaskProcessor.__init__]. *)
Definition default_queues : list string :=
  ["tasks:high"; "tasks:medium"; "tasks:low"; "tasks:default"].

Definition safe_fetch (pq : string) (st : qstore)
    : option (string * string * string) * qstore :=
  safe_fetch_from default_queues pq st.

(** [TaskProcessor.remove_from_processing(processing_queue, raw_task_json)]. *)
Definition remove_from_processing (st : qstore) (pq raw_json : string) : qstore :=
  lrem st pq raw_json.

(** One round of the [while True] loop of [CourseSystem._process_leftovers],
    for the entries it removes itself: the head of the processing list is
    read with [LINDEX 0]; an empty list, or an empty string at the head
    ([if not task_json: break]), ends the loop; an id-less dict or invalid
    JSON is removed; an entry with an id goes to [_handle_task]
    ([LeftHandle]); a non-dict raises and the handler passes ([LeftStuck]). *)
Inductive leftover_action :=
| LeftDone
| LeftRemoved (st : qstore)
| LeftHandle (task_id raw_json : string)
| LeftStuck.

Definition leftover_step (st : qstore) (pq : string) : leftover_action :=
  match lindex0 st pq with
  | None => LeftDone
  | Some x =>
      if String.eqb (raw x) "" then LeftDone
      else
      match parse (raw x) with
      | PDict (Some task_id) => LeftHandle task_id (raw x)
      | PDict None => LeftRemoved (remove_from_processing st pq (raw x))
      | PBad => LeftRemoved (remove_from_processing st pq (raw x))
      | PNotDict => LeftStuck
      end
  end.

End Fetch.

(** The atomic commands the worker fleet issues on the list keyspace.
    Producers [RPUSH] a new task record (a fresh tag); workers move a tail
    element with [RPOPLPUSH] and remove one element with [LREM k 1 v]. *)
Inductive reach : qstore -> Prop :=
| reach_empty : reach (fun _ => [])
| reach_push st k x :
    reach st -> (forall k', ~ In (tag x) (map tag (st k'))) ->
    reach (rpush st k x)
| reach_move st src dst :
    reach st -> reach (snd (rpoplpush st src dst))
| reach_rem st k v :
    reach st -> reach (lrem st k v).

(** The tags held by key [k]. *)
Definition tags (st : qstore) (k : string) : list nat := map tag (st k).

(** Every task record is held at most once by at most one key: it is in
    one priority queue, in one processing list, or nowhere. *)
Definition Inv (st : qstore) : Prop :=
  (forall k, NoDup (tags st k)) /\
  (forall t k1 k2, In t (tags st k1) -> In t (tags st k2) -> k1 = k2).

(** A concrete [json.loads] outcome for the examples: the empty string and
    ["bad"] are not JSON,
    ["[1]"] is a JSON list, ["noid"] is a dict without an id, and any other
    string is a dict whose id is that string. *)
Definition demo_parse (s : string) : parsed :=
  if String.eqb s "" then PBad
  else if String.eqb s "bad" then PBad
  else if String.eqb s "[1]" then PNotDict
  else if String.eqb s "noid" then PDict None
  else PDict (Some s).

End Queues.

(* ------------------------------------------------------------------ *)
(** ** Retry policy: [RetryManager] *)

Module Retry.

Local Open Scope Q_scope.

(** [RetryManager.should_retry(current_retries)]. *)
Definition should_retry (max_retries current_retries : nat) : bool :=
  Nat.ltb current_retries max_retries.

(** [RetryManager.get_backoff_time(current_retries)], computed exactly over
    the rationals.  [u] is the value of [random.random()] (in [0, 1)) used
    by [random.uniform(0, 0.1 * delay)], which returns [0 + (0.1 * delay - 0) * u]. *)
Definition delay (base_delay : Q) (current_retries : nat) : Q :=
  base_delay * inject_Z (2 ^ Z.of_nat current_retries).

Definition uniform (a b u : Q) : Q := a + (b - a) * u.

Definition get_backoff_time (base_delay max_delay : Q) (current_retries : nat)
    (u : Q) : Q :=
  let d := delay base_delay current_retries in
  let jitter := uniform 0 ((1 # 10) * d) u in
  Qmin (d + jitter) max_delay.

End Retry.

(* ------------------------------------------------------------------ *)
(** ** The handling pass: [CourseSystem._handle_task] *)

Module Worker.

(** Payload of a [sync_state] call: none, [{"retry_count": n}],
    [{"result": ...}] or [{"error": str(e)}]. *)
Inductive sync_data :=
| DNone
| DRetry (retry_count : nat)
| DResult (result_json : string)
| DError (error : string).

(** The observable steps of one handling pass, in program order. *)
Inductive ev :=
| EvGetState                                 (* state_synchronizer.get_state *)
| EvAcquire                                  (* state_synchronizer.acquire_lock *)
| EvHbStart                                  (* hb_thread.start() *)
| EvSync (status : string) (data : sync_data) (* state_synchronizer.sync_state *)
| EvExec (attempt : nat)                     (* agent_executor.execute *)
| EvWait (current_retries : nat)             (* retry_manager.wait_for_retry *)
| EvReport (status : string)                 (* grpc_client.report_result *)
| EvHbStop                                   (* stop_heartbeat.set(); hb_thread.join() *)
| EvRelease                                  (* state_synchronizer.release_lock *)
| EvAck (raw_json : string).                 (* task_processor.remove_from_processing *)

Definition sync_data_eq_dec (x y : sync_data) : {x = y} + {x <> y}.
Proof. decide equality; first [apply Nat.eq_dec | apply string_dec]. Defined.

Definition ev_eq_dec (x y : ev) : {x = y} + {x <> y}.
Proof.
  decide equality; first [apply Nat.eq_dec | apply string_dec | apply sync_data_eq_dec].
Defined.

(** [state and state.get('status') == 'completed']. *)
Definition is_completed (status : option string) : bool :=
  match status with
  | Some s => String.eqb s "completed"
  | None => false
  end.

(** Outcome of [_process_task_with_retry]: a return value or a raised error. *)
Inductive outcome :=
| Ret (result : string)
| Raise (error : string).

(** The outside world seen by one pass: what [get_state] returns for the
    ['status'] field, what [acquire_lock] returns, whether creating and
    starting the heartbeat thread succeeds, what the Executor does at each
    attempt ([inl result] or [inr error]), and the message of the exception
    [json.dumps(result)] raises, if it raises.  [sync_state], [release_lock], [remove_from_processing] and
    [report_result] catch every [Exception] themselves, so they never raise. *)
Record env := mkEnv {
  stored_status : option string;
  lock_acquired : bool;
  hb_start_ok : bool;
  execute : nat -> string + string;
  dumps_error : option string
}.

Section Pass.

Variable e : env.
Variable max_retries : nat.

(** [_process_task_with_retry]: [retries = 0]; [while True]: try
    [execute]; on an exception, if [should_retry(retries)]: log, wait for
    [get_backoff_time(retries)], [retries += 1], [sync_state("retrying",
    {"retry_count": retries})]; else re-raise.  The loop runs at most
    [max_retries + 1] times, which the [fuel] argument bounds. *)
Fixpoint retry_loop (fuel retries : nat) : list ev * outcome :=
  match execute e retries with
  | inl result => ([EvExec retries], Ret result)
  | inr err =>
      if Retry.should_retry max_retries retries then
        match fuel with
        | O => ([EvExec retries], Raise err)
        | S fuel' =>
            let (t, o) := retry_loop fuel' (S retries) in
            (EvExec retries :: EvWait retries
               :: EvSync "retrying" (DRetry (S retries)) :: t, o)
        end
      else ([EvExec retries], Raise err)
  end.

Definition process_task_with_retry : list ev * outcome :=
  retry_loop max_retries 0.

(** [_handle_task(task_id, task_data, processing_queue, raw_json)]: the
    events of the pass, and whether the outermost [except Exception]
    handler ran (it only logs and passes). *)
Definition handle_task (raw_json : string) : list ev * bool :=
  if is_completed (stored_status e)
  then ([EvGetState; EvAck raw_json], false)
  else if negb (lock_acquired e)
  then ([EvGetState; EvAcquire; EvAck raw_json], false)
  else if negb (hb_start_ok e)
  then ([EvGetState; EvAcquire], true)
  else
    let (t, o) := process_task_with_retry in
    let report :=
      match o with
      | Ret result =>
          match dumps_error e with
          | None => [EvSync "completed" (DResult result); EvReport "SUCCESS"]
          | Some msg => [EvSync "failed" (DError msg); EvReport "FAILURE"]
          end
      | Raise err => [EvSync "failed" (DError err); EvReport "FAILURE"]
      end in
    (([EvGetState; EvAcquire; EvHbStart; EvSync "running" DNone] ++ t ++ report
       ++ [EvHbStop; EvRelease; EvAck raw_json])%list, false).

End Pass.

(** The scenario of the spec: the Executor fails twice, then succeeds. *)
Definition fails_twice : env :=
  mkEnv None true true (fun i => if Nat.ltb i 2 then inr "boom" else inl "ok") None.

End Worker.

(* ------------------------------------------------------------------ *)
(** ** [RedisManager]'s own lock primitives *)

Module ManagerLock.
Import LockStore.

(** [RedisManager.acquire_lock(task_id, expire_seconds)]: the owner is the
    manager's [worker_id] and the key is [lock:task:{task_id}]; a
    [RedisError] gives [False]. *)
Definition acquire_lock (ls : lstore) (worker_id task_id : string)
    (expire_seconds : Z) : bool * lstore :=
  let lock_key := "lock:task:" ++ task_id in
  match redis_set_nx_ex ls lock_key worker_id expire_seconds with
  | Some (acquired, ls') => (acquired, ls')
  | None => (false, ls)
  end.

(** [RedisManager.release_lock(task_id)]: GET, then DEL when the value is
    the manager's [worker_id]. *)
Definition release_lock (ls : lstore) (worker_id task_id : string) : lstore :=
  let lock_key := "lock:task:" ++ task_id in
  match redis_get ls lock_key with
  | Some val => if String.eqb val worker_id then redis_del ls lock_key else ls
  | None => ls
  end.

End ManagerLock.

(* ------------------------------------------------------------------ *)
(** ** The BLPOP fetch and the leftover loop *)

Module QueueOps.
Import Queues.

(** [BLPOP queues]: the head of the first non-empty queue, with its queue
    name.  The blocking wait of an all-empty call ends in [None] after the
    timeout; the model returns [None] at once. *)
Fixpoint blpop (st : qstore) (queues : list string)
    : option (string * item) * qstore :=
  match queues with
  | [] => (None, st)
  | q :: rest =>
      match st q with
      | [] => blpop st rest
      | x :: l => (Some (q, x), set_list st q l)
      end
  end.

Section WithParse.

Variable parse : string -> parsed.

(** [TaskProcessor.fetch_task()]: BLPOP over the queues; a record with a
    truthy id gives [(task_id, task_data, queue_name)]; invalid JSON, an
    id-less dict, and (through the outer [except]) a non-dict give [None]. *)
Definition fetch_task (queues : list string) (st : qstore)
    : option (string * string) * qstore :=
  match blpop st queues with
  | (None, st1) => (None, st1)
  | (Some (queue_name, x), st1) =>
      match parse (raw x) with
      | PDict (Some task_id) => (Some (task_id, queue_name), st1)
      | _ => (None, st1)
      end
  end.

(** [CourseSystem._process_leftovers(processing_queue)]: the [while True]
    loop, [leftover_step] per round; [handle] is the effect of
    [_handle_task] on the list keyspace.  [fuel] bounds the rounds;
    [None] means the loop had not ended when the fuel ran out. *)
Fixpoint process_leftovers (handle : qstore -> string -> string -> qstore)
    (fuel : nat) (st : qstore) (pq : string) : option qstore :=
  match fuel with
  | O => None
  | S fuel' =>
      match leftover_step parse st pq with
      | LeftDone => Some st
      | LeftRemoved st' => process_leftovers handle fuel' st' pq
      | LeftHandle task_id raw_json =>
          process_leftovers handle fuel' (handle st task_id raw_json) pq
      | LeftStuck => process_leftovers handle fuel' st pq
      end
  end.

End WithParse.

End QueueOps.

(* ------------------------------------------------------------------ *)
(** ** Task state records: [RedisManager.update_state] and [get_state] *)

Module StateStore.

(** A hash field value as the code writes it: a string or a number. *)
Inductive hv :=
| VS (s : string)
| VN (z : Z).

(** Hash keys: field/value association lists, absent key = empty hash. *)
Definition hstore := string -> list (string * hv).

(** Setting one field of a hash ([HSET] of one field, [dict] assignment). *)
Fixpoint aset (h : list (string * hv)) (f : string) (v : hv) : list (string * hv) :=
  match h with
  | [] => [(f, v)]
  | (g, w) :: r => if String.eqb g f then (f, v) :: r else (g, w) :: aset r f v
  end.

Fixpoint alookup (h : list (string * hv)) (f : string) : option hv :=
  match h with
  | [] => None
  | (g, w) :: r => if String.eqb g f then Some w else alookup r f
  end.

(** [HSET key mapping=m]: the fields of [m] set one after the other. *)
Definition hset_mapping (h : list (string * hv)) (m : list (string * hv)) :=
  fold_left (fun acc fv => aset acc (fst fv) (snd fv)) m h.

(** The Redis side: hashes and the messages published on
    [task_status_updates] as [(task_id, status)]. *)
Record sstore := mkS { hashes : hstore; published : list (string * string) }.

Definition set_hash (hs : hstore) (k : string) (h : list (string * hv)) : hstore :=
  fun k' => if String.eqb k' k then h else hs k'.

(** [RedisManager.update_state(task_id, status, retry_count=0,
    extra_info=None)] at time [now]: the mapping [status, last_update,
    retry_count, worker_id], updated by [extra_info] when it is non-empty,
    is written with HSET, then the status is published. *)
Definition update_state (s : sstore) (now : Z) (worker_id task_id status : string)
    (retry_count : Z) (extra_info : list (string * hv)) : sstore :=
  let key := "task:" ++ task_id ++ ":state" in
  let mapping := [("status", VS status); ("last_update", VN now);
                  ("retry_count", VN retry_count); ("worker_id", VS worker_id)] in
  let mapping := match extra_info with
                 | [] => mapping
                 | _ => fold_left (fun acc fv => aset acc (fst fv) (snd fv)) extra_info mapping
                 end in
  mkS (set_hash (hashes s) key (hset_mapping (hashes s key) mapping))
      (published s ++ [(task_id, status)]).

(** The [data] of [StateSynchronizer.sync_state] as a dict. *)
Definition data_dict (d : Worker.sync_data) : list (string * hv) :=
  match d with
  | Worker.DNone => []
  | Worker.DRetry n => [("retry_count", VN (Z.of_nat n))]
  | Worker.DResult r => [("result", VS r)]
  | Worker.DError e => [("error", VS e)]
  end.

(** [StateSynchronizer.sync_state(task_id, status, data)]. *)
Definition sync_state (s : sstore) (now : Z) (worker_id task_id status : string)
    (d : Worker.sync_data) : sstore :=
  update_state s now worker_id task_id status 0 (data_dict d).

(** [StateSynchronizer.get_state(task_id)] ([HGETALL]) and the
    [state.get('status')] the worker reads from it. *)
Definition get_state (s : sstore) (task_id : string) : list (string * hv) :=
  hashes s ("task:" ++ task_id ++ ":state").

Definition status_of (state : list (string * hv)) : option string :=
  match alookup state "status" with
  | Some (VS st) => Some st
  | _ => None
  end.

(** The hash half of [RedisManager.heartbeat(task_id)]:
    [HSET task:{task_id}:state last_update now]. *)
Definition heartbeat_state (s : sstore) (now : Z) (task_id : string) : sstore :=
  if String.eqb task_id "" then s
  else let key := "task:" ++ task_id ++ ":state" in
       mkS (set_hash (hashes s) key (aset (hashes s key) "last_update" (VN now)))
           (published s).

End StateStore.

(* ================================================================== *)
(** * Properties *)

Module LockFacts.
Import LockStore.

Lemma length_append_str (s1 s2 : string) :
  String.length (s1 ++ s2) = (String.length s1 + String.length s2)%nat.
Proof. induction s1 as [|c s1 IH]; simpl; [reflexivity | now rewrite IH]. Qed.

(** The key the heartbeat refreshes is never the key acquire wrote. *)
Lemma heartbeat_key_differs (task_id : string) :
  ("lock:task:" ++ task_id) <> ("lock:" ++ task_id).
Proof.
  intro Heq. apply (f_equal String.length) in Heq.
  rewrite !length_append_str in Heq. simpl in Heq. lia.
Qed.

Lemma upd_other f k k' v : k' <> k -> upd f k v k' = f k'.
Proof.
  intro Hne. unfold upd. destruct (String.eqb_spec k' k); congruence.
Qed.

Lemma upd_same f k v : upd f k v k = v.
Proof. unfold upd. now rewrite String.eqb_refl. Qed.

Lemma heartbeat_other_key ls task_id k :
  k <> "lock:task:" ++ task_id -> locks (heartbeat ls task_id) k = locks ls k.
Proof.
  intro Hk. unfold heartbeat. destruct (String.eqb task_id ""); [reflexivity|].
  unfold redis_expire. destruct (locks ls ("lock:task:" ++ task_id)) as [[v x]|];
    [|reflexivity].
  destruct (live ls _); [simpl; now apply upd_other | reflexivity].
Qed.

Lemma heartbeat_now ls task_id : now (heartbeat ls task_id) = now ls.
Proof.
  unfold heartbeat. destruct (String.eqb task_id ""); [reflexivity|].
  unfold redis_expire. destruct (locks ls _) as [[v x]|]; [|reflexivity].
  destruct (live ls _); reflexivity.
Qed.

(** Heartbeat rounds advance the clock and leave the record at [lock:{id}]
    exactly as it was. *)
Lemma heartbeat_rounds_spec n ls task_id :
  now (heartbeat_rounds n ls task_id) = (now ls + 10 * Z.of_nat n)%Z /\
  locks (heartbeat_rounds n ls task_id) ("lock:" ++ task_id)
    = locks ls ("lock:" ++ task_id).
Proof.
  revert ls. induction n as [|n IH]; intro ls; cbn [heartbeat_rounds].
  - split; [cbn [Z.of_nat]; lia | reflexivity].
  - destruct (IH (tick (heartbeat ls task_id) 10)) as [H1 H2].
    rewrite H1, H2. unfold tick; cbn [now locks]. rewrite heartbeat_now.
    split; [rewrite Nat2Z.inj_succ; lia|].
    apply heartbeat_other_key. intro H. symmetry in H.
    exact (heartbeat_key_differs task_id H).
Qed.

(** After a successful acquire with the default TTL, the record the worker
    holds keeps its original expiry however many heartbeat rounds run. *)
Lemma heartbeat_never_extends_acquired_lock ls ls' task_id owner n :
  acquire_lock ls task_id owner 300 = (true, ls') ->
  locks (heartbeat_rounds n ls' task_id) ("lock:" ++ task_id)
    = Some (owner, now ls + 300)%Z.
Proof.
  unfold acquire_lock, redis_set_nx_ex. cbn [Z.leb Z.compare].
  destruct (live ls ("lock:" ++ task_id)); [discriminate|].
  intro H. inversion H; subst; clear H.
  rewrite (proj2 (heartbeat_rounds_spec _ _ _)). cbn [locks]. apply upd_same.
Qed.

End LockFacts.

Module LockClaims.
Import LockStore LockFacts.

(** C1 (code_bug evidence).  The worker acquires [t1] through
    [StateSynchronizer.acquire_lock] (key [lock:t1], TTL 300 s) at time 0;
    the heartbeat loop runs 30 rounds (one every 10 s) while the task is
    still executing; at time 300 the lock has lapsed and a second worker
    [w2] acquires [t1].  The heartbeat's EXPIRE went to [lock:task:t1]. *)
Theorem heartbeat_lets_lock_lapse :
  let '(ok, ls1) := acquire_lock (empty_at 0) "t1" "w1" 300 in
  let ls2 := heartbeat_rounds 30 ls1 "t1" in
  ok = true /\ now ls2 = 300%Z /\ redis_get ls2 "lock:t1" = None /\
  fst (acquire_lock ls2 "t1" "w2" 300) = true.
Proof. vm_compute. repeat split. Qed.

(** C6 (counterexample).  [acquire_lock] is not "true iff no live lock":
    with no lock at all and a TTL of 0, the SET is rejected by Redis, the
    exception is caught, and the result is [false]. *)
Lemma acquire_false_without_live_lock :
  ~ (forall ls resource_id owner_id ttl,
       fst (acquire_lock ls resource_id owner_id ttl) = true <->
       live ls ("lock:" ++ resource_id) = false).
Proof.
  intro H. specialize (H (empty_at 0) "t1" "w1" 0%Z).
  vm_compute in H. destruct H as [_ H]. discriminate (H eq_refl).
Qed.

(** C6 (amended).  With a positive TTL, [acquire_lock] returns true iff no
    live record exists at [lock:{resource_id}]; on success it has written
    the owner and the expiry [now + ttl] in one SET and touched no other
    key; with a live record it returns false and changes nothing.  With a
    non-positive TTL Redis rejects the SET and the call returns false
    without change. *)
Theorem acquire_lock_spec ls resource_id owner_id ttl :
  let key := "lock:" ++ resource_id in
  ((0 < ttl)%Z ->
   (fst (acquire_lock ls resource_id owner_id ttl) = true <-> live ls key = false) /\
   (live ls key = true -> acquire_lock ls resource_id owner_id ttl = (false, ls)) /\
   (live ls key = false ->
    exists ls', acquire_lock ls resource_id owner_id ttl = (true, ls') /\
      now ls' = now ls /\ locks ls' key = Some (owner_id, now ls + ttl)%Z /\
      redis_get ls' key = Some owner_id /\
      forall k, k <> key -> locks ls' k = locks ls k)) /\
  ((ttl <= 0)%Z -> acquire_lock ls resource_id owner_id ttl = (false, ls)).
Proof.
  cbv zeta. unfold acquire_lock, redis_set_nx_ex. split.
  - intro Hpos. assert (Hle : (ttl <=? 0)%Z = false) by (apply Z.leb_gt; lia).
    rewrite Hle. destruct (live ls ("lock:" ++ resource_id)) eqn:Hl.
    + split; [split; intro H; discriminate H|]. split; [reflexivity|].
      intro H; discriminate H.
    + split; [split; reflexivity|]. split; [intro H; discriminate H|].
      intros _. eexists. split; [reflexivity|].
      cbn [now locks]. split; [reflexivity|]. split; [apply upd_same|].
      split.
      * unfold redis_get, live. cbn [now locks]. rewrite upd_same.
        assert (Hlt : (now ls <? now ls + ttl)%Z = true) by (apply Z.ltb_lt; lia).
        rewrite Hlt. reflexivity.
      * intros k Hk. now apply upd_other.
  - intro Hneg. assert (Hle : (ttl <=? 0)%Z = true) by (apply Z.leb_le; lia).
    now rewrite Hle.
Qed.

Lemma acquire_lock_spec_witness :
  (0 < 300)%Z /\
  (fst (acquire_lock (empty_at 0) "t1" "w1" 300) = true <->
   live (empty_at 0) ("lock:" ++ "t1") = false).
Proof.
  split; [lia|].
  exact (proj1 (proj1 (acquire_lock_spec (empty_at 0) "t1" "w1" 300) ltac:(lia))).
Defined.

(** C9 (counterexample).  [release_lock] reads, then deletes, in two
    commands.  Worker [A] holds [lock:t1] (TTL 300, taken at time 0) and
    reads it at time 299; the lock expires at 300 and worker [B] acquires
    it; [A]'s DELETE then removes [B]'s record. *)
Lemma release_deletes_other_owners_lock :
  let '(_, ls0) := acquire_lock (empty_at 0) "t1" "A" 300 in
  let ls1 := tick ls0 299 in
  let do_del := release_read ls1 "t1" "A" in
  let '(okB, ls2) := acquire_lock (tick ls1 1) "t1" "B" 300 in
  do_del = true /\ okB = true /\ redis_get ls2 "lock:t1" = Some "B" /\
  redis_get (release_finish ls2 "t1" do_del) "lock:t1" = None.
Proof. vm_compute. repeat split. Qed.

(** C9 (amended).  When no other command reaches the lock key between its
    GET and its DELETE, [release_lock] deletes the record at
    [lock:{resource_id}] (and nothing else) when the stored live owner is
    [owner_id], and otherwise leaves the store unchanged. *)
Theorem release_lock_spec ls resource_id owner_id :
  let key := "lock:" ++ resource_id in
  (redis_get ls key = Some owner_id ->
   locks (release_lock ls resource_id owner_id) key = None /\
   now (release_lock ls resource_id owner_id) = now ls /\
   forall k, k <> key -> locks (release_lock ls resource_id owner_id) k = locks ls k) /\
  (redis_get ls key <> Some owner_id -> release_lock ls resource_id owner_id = ls).
Proof.
  cbv zeta. unfold release_lock, release_read, release_finish. split.
  - intro H. rewrite H, String.eqb_refl. unfold redis_del. cbn [now locks].
    split; [apply upd_same|]. split; [reflexivity|]. intros k Hk. now apply upd_other.
  - intro H. destruct (redis_get ls ("lock:" ++ resource_id)) as [v|]; [|reflexivity].
    destruct (String.eqb_spec v owner_id); [subst; contradiction|reflexivity].
Qed.

Lemma release_lock_spec_witness :
  redis_get (snd (acquire_lock (empty_at 0) "t1" "w1" 300)) ("lock:" ++ "t1") = Some "w1" /\
  locks (release_lock (snd (acquire_lock (empty_at 0) "t1" "w1" 300)) "t1" "w1")
    ("lock:" ++ "t1") = None.
Proof.
  split; [vm_compute; reflexivity|].
  apply (proj1 (release_lock_spec (snd (acquire_lock (empty_at 0) "t1" "w1" 300)) "t1" "w1")).
  vm_compute; reflexivity.
Defined.

End LockClaims.

Module RetryClaims.
Import Retry.
Local Open Scope Q_scope.

Lemma delay_nonneg base n : 0 <= base -> 0 <= delay base n.
Proof.
  intro Hb. unfold delay. apply Qmult_le_0_compat; [exact Hb|].
  change 0 with (inject_Z 0). rewrite <- Zle_Qle.
  apply Z.pow_nonneg. lia.
Qed.

Lemma delay_succ base n : delay base (S n) == 2 * delay base n.
Proof.
  unfold delay. rewrite Nat2Z.inj_succ, Z.pow_succ_r by lia.
  rewrite inject_Z_mult. change (inject_Z 2) with 2. ring.
Qed.

(** C8.  For a non-negative [base_delay] and a draw [u] of [random.random()]
    in [0, 1): the backoff is [base_delay * 2^n] plus a jitter in
    [0, 10% of base_delay * 2^n], capped at [max_delay]; it never exceeds
    [max_delay]; the smallest possible value (jitter 0) is a lower bound of
    all values at [n], and it does not decrease from [n] to [n + 1]. *)
Theorem get_backoff_time_spec base_delay max_delay n u
    (Hbase : 0 <= base_delay) (Hu : 0 <= u < 1) :
  get_backoff_time base_delay max_delay n u <= max_delay /\
  (exists jitter, 0 <= jitter <= (1 # 10) * delay base_delay n /\
     get_backoff_time base_delay max_delay n u
       = Qmin (delay base_delay n + jitter) max_delay) /\
  get_backoff_time base_delay max_delay n 0 <= get_backoff_time base_delay max_delay n u /\
  get_backoff_time base_delay max_delay n 0 <= get_backoff_time base_delay max_delay (S n) 0.
Proof.
  pose proof (delay_nonneg base_delay n Hbase) as Hd.
  pose proof (delay_succ base_delay n) as Hs.
  unfold get_backoff_time, uniform.
  set (d := delay base_delay n) in *.
  assert (Hj0 : 0 <= ((1 # 10) * d - 0) * u) by (apply Qmult_le_0_compat; lra).
  assert (Hj1 : ((1 # 10) * d - 0) * u <= (1 # 10) * d).
  { assert (H : ((1 # 10) * d - 0) * u <= ((1 # 10) * d - 0) * 1).
    { apply Qmult_le_compat_nonneg; split; lra. }
    lra. }
  split; [apply Q.le_min_r|].
  split.
  - exists (0 + ((1 # 10) * d - 0) * u). split; [lra | reflexivity].
  - split.
    + apply Q.min_le_compat_r. lra.
    + apply Q.min_le_compat_r. rewrite Hs. ring_simplify. lra.
Qed.

Lemma get_backoff_time_spec_witness :
  (0 <= 1 /\ 0 <= 1 # 2 < 1) /\
  get_backoff_time 1 60 3 (1 # 2) <= 60.
Proof.
  split; [split; [lra | split; lra]|].
  apply (proj1 (get_backoff_time_spec 1 60 3 (1 # 2) ltac:(lra) ltac:(split; lra))).
Defined.

End RetryClaims.

Module WorkerFacts.
Import Worker.

(** Every step of the retry loop is an Executor call, a backoff wait or a
    [retrying] publication. *)
Lemma retry_loop_events e max_retries fuel retries x :
  In x (fst (retry_loop e max_retries fuel retries)) ->
  (exists a, x = EvExec a) \/ (exists a, x = EvWait a) \/
  (exists d, x = EvSync "retrying" d).
Proof.
  revert retries. induction fuel as [|fuel IH]; intro retries; simpl.
  - destruct (execute e retries); [|destruct (Retry.should_retry _ _)];
      simpl; intros [H|[]]; subst; left; eexists; reflexivity.
  - destruct (execute e retries) as [r|err].
    + simpl. intros [H|[]]; subst; left; eexists; reflexivity.
    + destruct (Retry.should_retry _ _).
      * destruct (retry_loop e max_retries fuel (S retries)) as [t o] eqn:Ht.
        simpl. intros [H|[H|[H|H]]]; subst.
        -- left; eexists; reflexivity.
        -- right; left; eexists; reflexivity.
        -- right; right; eexists; reflexivity.
        -- apply (IH (S retries)). now rewrite Ht.
      * simpl. intros [H|[]]; subst; left; eexists; reflexivity.
Qed.

Lemma count_occ_retry_loop e max_retries fuel retries y :
  (forall a, y <> EvExec a) -> (forall a, y <> EvWait a) ->
  (forall d, y <> EvSync "retrying" d) ->
  count_occ ev_eq_dec (fst (retry_loop e max_retries fuel retries)) y = 0.
Proof.
  intros H1 H2 H3. apply count_occ_not_In. intro Hin.
  destruct (retry_loop_events _ _ _ _ _ Hin) as [[a Ha]|[[a Ha]|[d Ha]]];
    [exact (H1 a Ha) | exact (H2 a Ha) | exact (H3 d Ha)].
Qed.

(** The expected steps of [n] failed attempts starting at attempt [r]. *)
Fixpoint retry_trace (r n : nat) : list ev :=
  match n with
  | O => []
  | S n' => EvExec r :: EvWait r :: EvSync "retrying" (DRetry (S r)) :: retry_trace (S r) n'
  end.

Lemma retry_loop_success e max_retries k result :
  k <= max_retries ->
  (forall i, i < k -> exists err, execute e i = inr err) ->
  execute e k = inl result ->
  forall n r fuel, r + n = k -> fuel + r = max_retries ->
  retry_loop e max_retries fuel r = ((retry_trace r n ++ [EvExec k])%list, Ret result).
Proof.
  intros Hk Hfail Hok n. induction n as [|n IH]; intros r fuel Hr Hf.
  - rewrite Nat.add_0_r in Hr. subst r. destruct fuel; simpl; now rewrite Hok.
  - destruct (Hfail r ltac:(lia)) as [err Herr].
    destruct fuel as [|fuel]; [lia|]. simpl. rewrite Herr.
    unfold Retry.should_retry.
    assert (Hlt : Nat.ltb r max_retries = true) by (apply Nat.ltb_lt; lia).
    rewrite Hlt, (IH (S r) fuel ltac:(lia) ltac:(lia)). reflexivity.
Qed.

Lemma retry_loop_exhausted e max_retries err :
  (forall i, i < max_retries -> exists err', execute e i = inr err') ->
  execute e max_retries = inr err ->
  forall n r fuel, r + n = max_retries -> fuel + r = max_retries ->
  retry_loop e max_retries fuel r
    = ((retry_trace r n ++ [EvExec max_retries])%list, Raise err).
Proof.
  intros Hfail Hlast n. induction n as [|n IH]; intros r fuel Hr Hf.
  - rewrite Nat.add_0_r in Hr. subst r.
    destruct fuel; simpl; rewrite Hlast; unfold Retry.should_retry;
      now rewrite Nat.ltb_irrefl.
  - destruct (Hfail r ltac:(lia)) as [err' Herr].
    destruct fuel as [|fuel]; [lia|]. simpl. rewrite Herr.
    unfold Retry.should_retry.
    assert (Hlt : Nat.ltb r max_retries = true) by (apply Nat.ltb_lt; lia).
    rewrite Hlt, (IH (S r) fuel ltac:(lia) ltac:(lia)). reflexivity.
Qed.

End WorkerFacts.

Module WorkerClaims.
Import Worker WorkerFacts.

(** C5.  A duplicate delivery (stored status [completed], or the lock held
    by another owner) ends the pass normally after removing the raw bytes
    from the processing list once: no Executor call, no state
    transition, no heartbeat. *)
Theorem duplicate_delivery_only_acks e max_retries raw_json
    (Hdup : is_completed (stored_status e) = true \/ lock_acquired e = false) :
  let (t, caught) := handle_task e max_retries raw_json in
  caught = false /\
  (t = [EvGetState; EvAck raw_json] \/ t = [EvGetState; EvAcquire; EvAck raw_json]).
Proof.
  unfold handle_task. destruct (is_completed (stored_status e)) eqn:Hc.
  - split; [reflexivity | left; reflexivity].
  - destruct Hdup as [H|H]; [discriminate H|]. rewrite H. cbn [negb].
    split; [reflexivity | right; reflexivity].
Qed.

Lemma duplicate_delivery_only_acks_witness :
  (is_completed (stored_status (mkEnv None false true (fun _ => inl "r") None)) = true \/
   lock_acquired (mkEnv None false true (fun _ => inl "r") None) = false) /\
  snd (handle_task (mkEnv None false true (fun _ => inl "r") None) 3 "raw") = false.
Proof.
  assert (H : is_completed (stored_status (mkEnv None false true (fun _ => inl "r") None)) = true \/
              lock_acquired (mkEnv None false true (fun _ => inl "r") None) = false)
    by (right; reflexivity).
  split; [exact H|].
  pose proof (duplicate_delivery_only_acks _ 3 "raw" H) as Hs.
  destruct (handle_task _ 3 "raw") as [t c]. exact (proj1 Hs).
Defined.

(** C2 (counterexample).  After the lock is acquired, an exception raised
    while the heartbeat thread is created or started escapes to the
    outermost handler: the pass ends with neither a lock release nor an
    acknowledgment. *)
Lemma finalize_skipped_on_heartbeat_start_error :
  ~ (forall e max_retries raw_json,
       is_completed (stored_status e) = false -> lock_acquired e = true ->
       count_occ ev_eq_dec (fst (handle_task e max_retries raw_json)) EvRelease = 1 /\
       count_occ ev_eq_dec (fst (handle_task e max_retries raw_json)) (EvAck raw_json) = 1).
Proof.
  intro H.
  destruct (H (mkEnv None true false (fun _ => inl "r") None) 3 "raw" eq_refl eq_refl)
    as [H1 _].
  vm_compute in H1. discriminate H1.
Qed.

(** C2 (amended).  Once the lock is acquired and the heartbeat thread has
    started, every outcome of the pass (success, exhausted retries, a
    serialization error of the result) ends with heartbeat stop, lock
    release and acknowledgment, each exactly once and in that order, and
    the outermost handler is not reached. *)
Theorem finalize_runs_once e max_retries raw_json
    (Hnc : is_completed (stored_status e) = false)
    (Hlock : lock_acquired e = true) (Hhb : hb_start_ok e = true) :
  let (t, caught) := handle_task e max_retries raw_json in
  caught = false /\
  exists pre, t = (pre ++ [EvHbStop; EvRelease; EvAck raw_json])%list /\
    ~ In EvHbStop pre /\ ~ In EvRelease pre /\ ~ In (EvAck raw_json) pre.
Proof.
  unfold handle_task. rewrite Hnc, Hlock, Hhb. cbn [negb].
  destruct (process_task_with_retry e max_retries) as [t o] eqn:Hp.
  match goal with
  | |- context [ (_ ++ t ++ ?r ++ _)%list ] => remember r as report eqn:Hrep
  end.
  split; [reflexivity|].
  exists ([EvGetState; EvAcquire; EvHbStart; EvSync "running" DNone] ++ t ++ report)%list.
  split; [now rewrite <- !app_assoc|].
  assert (Ht : forall y, In y t -> (exists a, y = EvExec a) \/ (exists a, y = EvWait a) \/
                                   (exists d, y = EvSync "retrying" d)).
  { intros y Hy. apply (retry_loop_events e max_retries max_retries 0).
    unfold process_task_with_retry in Hp. now rewrite Hp. }
  assert (Hr : forall y, In y report ->
                        (exists s d, y = EvSync s d) \/ (exists s, y = EvReport s)).
  { intros y Hy. rewrite Hrep in Hy.
    destruct o as [result|err]; [destruct (dumps_error e)|];
      simpl in Hy; destruct Hy as [Hy|[Hy|[]]]; subst;
      first [left; do 2 eexists; reflexivity | right; eexists; reflexivity]. }
  repeat split; intro Hin; rewrite !in_app_iff in Hin;
    destruct Hin as [Hin|[Hin|Hin]];
    try (simpl in Hin; destruct Hin as [Hin|[Hin|[Hin|[Hin|[]]]]]; discriminate Hin);
    try (destruct (Ht _ Hin) as [[a Ha]|[[a Ha]|[d Ha]]]; discriminate Ha);
    destruct (Hr _ Hin) as [[s [d Ha]]|[s Ha]]; discriminate Ha.
Qed.

Lemma finalize_runs_once_witness :
  is_completed (stored_status (mkEnv None true true (fun _ => inr "boom") None)) = false /\
  lock_acquired (mkEnv None true true (fun _ => inr "boom") None) = true /\
  hb_start_ok (mkEnv None true true (fun _ => inr "boom") None) = true /\
  snd (handle_task (mkEnv None true true (fun _ => inr "boom") None) 3 "raw") = false.
Proof.
  split; [reflexivity|]. split; [reflexivity|]. split; [reflexivity|].
  pose proof (finalize_runs_once (mkEnv None true true (fun _ => inr "boom") None)
                3 "raw" eq_refl eq_refl eq_refl) as Hs.
  destruct (handle_task _ 3 "raw") as [t c]. exact (proj1 Hs).
Defined.

End WorkerClaims.

Module RetryPassClaims.
Import Worker WorkerFacts.

(** The handling pass of a task whose first [k] Executor calls fail, in
    the lock-holding case. *)
Lemma handle_task_trace e max_retries raw_json
    (Hnc : is_completed (stored_status e) = false)
    (Hlock : lock_acquired e = true) (Hhb : hb_start_ok e = true) :
  handle_task e max_retries raw_json =
  (([EvGetState; EvAcquire; EvHbStart; EvSync "running" DNone]
     ++ fst (process_task_with_retry e max_retries)
     ++ match snd (process_task_with_retry e max_retries) with
        | Ret result =>
            match dumps_error e with
            | None => [EvSync "completed" (DResult result); EvReport "SUCCESS"]
            | Some msg => [EvSync "failed" (DError msg); EvReport "FAILURE"]
            end
        | Raise err => [EvSync "failed" (DError err); EvReport "FAILURE"]
        end
     ++ [EvHbStop; EvRelease; EvAck raw_json])%list, false).
Proof.
  unfold handle_task. rewrite Hnc, Hlock, Hhb. cbn [negb].
  destruct (process_task_with_retry e max_retries) as [t o]. reflexivity.
Qed.

(** C4 (counterexample).  With [max_retries = 3] and an Executor that
    always fails: the backoff wait comes before the [retrying]
    publication, and after three failures a fourth attempt is made. *)
Lemma wait_precedes_retrying_and_fourth_attempt :
  fst (process_task_with_retry (mkEnv None true true (fun _ => inr "boom") None) 3) =
  [EvExec 0; EvWait 0; EvSync "retrying" (DRetry 1);
   EvExec 1; EvWait 1; EvSync "retrying" (DRetry 2);
   EvExec 2; EvWait 2; EvSync "retrying" (DRetry 3);
   EvExec 3].
Proof. vm_compute. reflexivity. Qed.

(** C4 (amended).  In a pass holding the lock, while the number [i] of
    retries made so far is below [max_retries], each Executor failure is
    followed by the backoff wait for [i], then by [retrying] with
    [retry_count = i + 1], then by the next attempt.  If the first [k]
    attempts fail and attempt [k] succeeds ([k <= max_retries]), the pass
    publishes [running], the [k] retrying transitions and [completed]; if
    all [max_retries + 1] attempts fail, the last failure is not retried
    and the pass publishes [failed] with its error.  Both end in the
    finalize steps. *)
Theorem retry_transitions e max_retries raw_json k
    (Hnc : is_completed (stored_status e) = false)
    (Hlock : lock_acquired e = true) (Hhb : hb_start_ok e = true)
    (Hfail : forall i, i < k -> exists err, execute e i = inr err)
    (Hk : k <= max_retries) :
  (forall result, execute e k = inl result -> dumps_error e = None ->
   fst (handle_task e max_retries raw_json) =
   ([EvGetState; EvAcquire; EvHbStart; EvSync "running" DNone]
    ++ retry_trace 0 k
    ++ [EvExec k; EvSync "completed" (DResult result); EvReport "SUCCESS";
        EvHbStop; EvRelease; EvAck raw_json])%list) /\
  (forall err, k = max_retries -> execute e k = inr err ->
   fst (handle_task e max_retries raw_json) =
   ([EvGetState; EvAcquire; EvHbStart; EvSync "running" DNone]
    ++ retry_trace 0 max_retries
    ++ [EvExec max_retries; EvSync "failed" (DError err); EvReport "FAILURE";
        EvHbStop; EvRelease; EvAck raw_json])%list).
Proof.
  rewrite (handle_task_trace e max_retries raw_json Hnc Hlock Hhb). cbn [fst].
  unfold process_task_with_retry. split.
  - intros result Hok Hd.
    rewrite (retry_loop_success e max_retries k result Hk Hfail Hok k 0 max_retries
               ltac:(lia) ltac:(lia)).
    cbn [fst snd]. rewrite Hd. now rewrite <- !app_assoc.
  - intros err Heq Herr. subst k.
    rewrite (retry_loop_exhausted e max_retries err Hfail Herr max_retries 0 max_retries
               ltac:(lia) ltac:(lia)).
    cbn [fst snd]. now rewrite <- !app_assoc.
Qed.

Lemma retry_transitions_witness :
  fst (handle_task fails_twice 3 "raw") =
  [EvGetState; EvAcquire; EvHbStart; EvSync "running" DNone;
   EvExec 0; EvWait 0; EvSync "retrying" (DRetry 1);
   EvExec 1; EvWait 1; EvSync "retrying" (DRetry 2);
   EvExec 2; EvSync "completed" (DResult "ok"); EvReport "SUCCESS";
   EvHbStop; EvRelease; EvAck "raw"].
Proof.
  refine (proj1 (retry_transitions fails_twice 3 "raw" 2 eq_refl eq_refl eq_refl _ _)
            "ok" eq_refl eq_refl).
  - intros i Hi. exists "boom". unfold fails_twice; cbn [execute].
    destruct (Nat.ltb_spec i 2); [reflexivity | lia].
  - lia.
Defined.

End RetryPassClaims.

Module QueueFacts.
Import Queues.
Local Open Scope list_scope.

Lemma set_list_at st k l k' :
  set_list st k l k' = if String.eqb k' k then l else st k'.
Proof. reflexivity. Qed.

Lemma in_tags_set st k0 l t k :
  In t (tags (set_list st k0 l) k) ->
  (k = k0 /\ In t (map tag l)) \/ (k <> k0 /\ In t (tags st k)).
Proof.
  unfold tags. rewrite set_list_at.
  destruct (String.eqb_spec k k0); [left | right]; auto.
Qed.

Lemma unsnoc_spec l rest x : unsnoc l = Some (rest, x) -> l = rest ++ [x].
Proof.
  unfold unsnoc. intro H. destruct (rev l) as [|y r] eqn:Hr; [discriminate|].
  inversion H; subst. rewrite <- (rev_involutive l), Hr. reflexivity.
Qed.

Lemma unsnoc_app rest x : unsnoc (rest ++ [x]) = Some (rest, x).
Proof. unfold unsnoc. rewrite rev_app_distr. simpl. now rewrite rev_involutive. Qed.

Lemma unsnoc_nil l : unsnoc l = None -> l = [].
Proof. unfold unsnoc. destruct (rev l) eqn:Hr; [|discriminate]. intros _.
  now apply (f_equal (@rev item)) in Hr; rewrite rev_involutive in Hr. Qed.

(** Shrinking every key to a sub-collection keeps the invariant. *)
Lemma inv_shrink st st' :
  Inv st ->
  (forall k, NoDup (tags st k) -> NoDup (tags st' k)) ->
  (forall k t, In t (tags st' k) -> In t (tags st k)) ->
  Inv st'.
Proof.
  intros [Hnd Hx] Hnd' Hin. split.
  - intro k. apply Hnd', Hnd.
  - intros t k1 k2 H1 H2. apply (Hx t); auto.
Qed.

(** Inserting a record found in no key keeps the invariant. *)
Lemma inv_insert_fresh st k0 l x :
  Inv st -> (forall k, ~ In (tag x) (tags st k)) ->
  Permutation l (x :: st k0) ->
  Inv (set_list st k0 l).
Proof.
  intros [Hnd Hx] Hfresh Hperm. split.
  - intro k. unfold tags. rewrite set_list_at.
    destruct (String.eqb_spec k k0); [|apply Hnd]. subst k.
    apply (Permutation_NoDup (Permutation_sym (Permutation_map tag Hperm))).
    simpl. constructor; [apply Hfresh | apply Hnd].
  - assert (Hloc : forall t k, In t (tags (set_list st k0 l) k) ->
                   (t = tag x /\ k = k0) \/ (t <> tag x /\ In t (tags st k))).
    { intros t k H. destruct (in_tags_set _ _ _ _ _ H) as [[-> Hl]|[Hne Hs]].
      - pose proof (Permutation_in _ (Permutation_map tag Hperm) Hl) as Hl'.
        simpl in Hl'. destruct Hl' as [Ht|Ht]; [left; auto|].
        destruct (Nat.eq_dec t (tag x)) as [->|Hnt]; [left; auto|].
        right; split; [exact Hnt | exact Ht].
      - destruct (Nat.eq_dec t (tag x)) as [->|Hnt].
        + exfalso. exact (Hfresh k Hs).
        + right; auto. }
    intros t k1 k2 H1 H2.
    destruct (Hloc _ _ H1) as [[Ht1 ->]|[Ht1 H1']];
      destruct (Hloc _ _ H2) as [[Ht2 ->]|[Ht2 H2']];
      try reflexivity; try contradiction.
    exact (Hx t k1 k2 H1' H2').
Qed.

Lemma lrem1_sub v l t : In t (map tag (lrem1 v l)) -> In t (map tag l).
Proof.
  induction l as [|x l IH]; simpl; [tauto|].
  destruct (String.eqb (raw x) v); simpl; [tauto|]. intuition.
Qed.

Lemma lrem1_nodup v l : NoDup (map tag l) -> NoDup (map tag (lrem1 v l)).
Proof.
  induction l as [|x l IH]; simpl; [tauto|]. intro H. inversion H; subst.
  destruct (String.eqb (raw x) v); [assumption|]. simpl. constructor; auto.
  intro Hin. apply H2. now apply (lrem1_sub v).
Qed.

Lemma inv_lrem st k v : Inv st -> Inv (lrem st k v).
Proof.
  intro H. apply (inv_shrink st); [exact H| |].
  - intros k' Hk'. unfold tags, lrem. rewrite set_list_at.
    destruct (String.eqb_spec k' k); [subst; now apply lrem1_nodup | exact Hk'].
  - intros k' t Ht. unfold tags, lrem in *. rewrite set_list_at in Ht.
    destruct (String.eqb_spec k' k); [subst; now apply (lrem1_sub v) | exact Ht].
Qed.

Lemma inv_rpush st k x :
  Inv st -> (forall k', ~ In (tag x) (tags st k')) -> Inv (rpush st k x).
Proof.
  intros H Hf. unfold rpush. apply (inv_insert_fresh st k _ x H Hf).
  apply Permutation_sym, Permutation_cons_append.
Qed.

Lemma inv_rpoplpush st src dst :
  Inv st -> Inv (snd (rpoplpush st src dst)).
Proof.
  intros H. unfold rpoplpush. destruct (unsnoc (st src)) as [[rest x]|] eqn:Hu;
    [|exact H]. cbn [snd].
  apply unsnoc_spec in Hu.
  assert (Hnd_src : NoDup (map tag rest ++ [tag x])).
  { change [tag x] with (map tag [x]). rewrite <- map_app, <- Hu. apply (proj1 H). }
  assert (H1 : Inv (set_list st src rest)).
  { apply (inv_shrink st); [exact H| |].
    - intros k Hk. unfold tags. rewrite set_list_at.
      destruct (String.eqb_spec k src); [|exact Hk].
      exact (NoDup_app_remove_r _ _ Hnd_src).
    - intros k t Ht. unfold tags in *. rewrite set_list_at in Ht.
      destruct (String.eqb_spec k src) as [Heq|]; [|exact Ht]. rewrite Heq.
      rewrite Hu, map_app, in_app_iff. now left. }
  apply (inv_insert_fresh _ dst _ x H1); [|apply Permutation_refl].
  intros k Hin. unfold tags in Hin. rewrite set_list_at in Hin.
  destruct (String.eqb_spec k src) as [Heq|Hne].
  - apply (NoDup_remove_2 (map tag rest) [] (tag x) Hnd_src).
    now rewrite app_nil_r.
  - apply Hne. apply (proj2 H (tag x) k src Hin).
    unfold tags. rewrite Hu, map_app, in_app_iff. right. now left.
Qed.

(** Every state the fleet can reach satisfies the invariant. *)
Lemma reach_inv st : reach st -> Inv st.
Proof.
  induction 1 as [|st k x _ IH Hf|st src dst _ IH|st k v _ IH].
  - split; [intro; constructor | intros t k1 k2 []].
  - now apply inv_rpush.
  - now apply inv_rpoplpush.
  - now apply inv_lrem.
Qed.

(** [safe_fetch] only issues [RPOPLPUSH] and [LREM]: every intermediate
    state, and the final one, is reachable. *)
Lemma safe_fetch_reach parse queues pq st :
  reach st -> reach (snd (safe_fetch_from parse queues pq st)).
Proof.
  revert st. induction queues as [|q qs IH]; intros st Hst; simpl; [exact Hst|].
  pose proof (reach_move st q pq Hst) as Hm.
  destruct (rpoplpush st q pq) as [[x|] st1] eqn:Hr; cbn [snd] in Hm.
  - destruct (String.eqb (raw x) ""); [now apply IH|].
    destruct (parse (raw x)) as [| |[id|]].
    + apply IH. now apply reach_rem.
    + exact Hm.
    + exact Hm.
    + now apply IH.
  - now apply IH.
Qed.

End QueueFacts.

Module QueueLemmas.
Import Queues QueueFacts.
Local Open Scope list_scope.

Lemma lrem1_keeps v l r : In r l -> raw r <> v -> In r (lrem1 v l).
Proof.
  induction l as [|x l IH]; simpl; [tauto|]. intros [->|Hin] Hne.
  - destruct (String.eqb_spec (raw r) v); [contradiction | now left].
  - destruct (String.eqb (raw x) v); [exact Hin | right; auto].
Qed.

(** One round of the scan on a non-empty queue [q] distinct from the
    processing list: the tail moves to the head of the processing list. *)
Lemma rpoplpush_tail st q pq rest x :
  q <> pq -> st q = rest ++ [x] ->
  rpoplpush st q pq = (Some x, set_list (set_list st q rest) pq (x :: st pq)).
Proof.
  intros Hq Hst. unfold rpoplpush. rewrite Hst, unsnoc_app.
  rewrite (set_list_at st q rest pq).
  destruct (String.eqb_spec pq q); [congruence | reflexivity].
Qed.

Lemma rpoplpush_empty st q pq : st q = [] -> rpoplpush st q pq = (None, st).
Proof. intro H. unfold rpoplpush. now rewrite H. Qed.

Lemma safe_fetch_step parse q qs pq st rest x :
  q <> pq -> st q = rest ++ [x] ->
  safe_fetch_from parse (q :: qs) pq st =
  let st1 := set_list (set_list st q rest) pq (x :: st pq) in
  if String.eqb (raw x) "" then safe_fetch_from parse qs pq st1
  else
  match parse (raw x) with
  | PDict (Some task_id) => (Some (task_id, q, raw x), st1)
  | PDict None => safe_fetch_from parse qs pq st1
  | PBad => safe_fetch_from parse qs pq (lrem st1 pq (raw x))
  | PNotDict => (None, st1)
  end.
Proof. intros Hq Hst. simpl. now rewrite (rpoplpush_tail st q pq rest x Hq Hst). Qed.

Lemma set_list_same st k l : set_list st k l k = l.
Proof. unfold set_list. now rewrite String.eqb_refl. Qed.

(** A record sitting in the processing list stays there through any scan
    that does not read the processing list itself, unless its own bytes
    are invalid JSON. *)
Lemma safe_fetch_keeps parse r queues pq st :
  parse (raw r) <> PBad -> ~ In pq queues -> In r (st pq) ->
  In r (snd (safe_fetch_from parse queues pq st) pq).
Proof.
  intros Hr. revert st. induction queues as [|q qs IH]; intros st Hpq Hin; [exact Hin|].
  assert (Hq : q <> pq) by (intro; subst; apply Hpq; now left).
  assert (Hpq' : ~ In pq qs) by (intro; apply Hpq; now right).
  destruct (st q) as [|y l] eqn:Hsq.
  - simpl. rewrite (rpoplpush_empty st q pq Hsq). now apply IH.
  - destruct (unsnoc (st q)) as [[rest x]|] eqn:Hu;
      [|apply unsnoc_nil in Hu; congruence].
    apply unsnoc_spec in Hu.
    rewrite (safe_fetch_step parse q qs pq st rest x Hq Hu). cbv zeta.
    assert (Hin1 : In r (set_list (set_list st q rest) pq (x :: st pq) pq))
      by (rewrite set_list_same; now right).
    destruct (String.eqb (raw x) ""); [apply IH; assumption|].
    destruct (parse (raw x)) as [| |[id|]] eqn:Hpx.
    + apply IH; [exact Hpq'|]. unfold lrem. rewrite set_list_same.
      apply lrem1_keeps; [exact Hin1|]. intro He. apply Hr. now rewrite He.
    + exact Hin1.
    + exact Hin1.
    + apply IH; assumption.
Qed.

(** What [safe_fetch] returns is the tail of a queue whose bytes parse as
    a dict with a truthy id. *)
Lemma safe_fetch_returned parse queues pq st task_id q v :
  fst (safe_fetch_from parse queues pq st) = Some (task_id, q, v) ->
  parse v = PDict (Some task_id).
Proof.
  revert st. induction queues as [|q0 qs IH]; intro st; simpl; [discriminate|].
  destruct (rpoplpush st q0 pq) as [[x|] st1].
  - destruct (String.eqb (raw x) ""); [apply IH|].
    destruct (parse (raw x)) as [| |[id|]] eqn:Hpx; try (apply IH).
    + discriminate.
    + cbn [fst]. intro H. inversion H; subst. exact Hpx.
  - apply IH.
Qed.

End QueueLemmas.

Module QueueClaims.
Import Queues QueueFacts QueueLemmas.
Local Open Scope list_scope.

(** C3.  In every state reachable by producers' RPUSH of new records and
    workers' RPOPLPUSH and LREM, each task record is held at most once by
    at most one key (a priority queue, a processing list, or none).  A
    [safe_fetch] (any queue order, any parse outcome) only passes through
    such states; and the single RPOPLPUSH that fetches a record leaves it
    at the head of the processing list and in no other key, so a worker
    stopping right after it finds the record there. *)
Theorem no_task_loss st (Hst : reach st) :
  Inv st /\
  (forall parse queues pq,
     reach (snd (safe_fetch_from parse queues pq st)) /\
     Inv (snd (safe_fetch_from parse queues pq st))) /\
  (forall src pq rest x, st src = rest ++ [x] ->
     let st' := snd (rpoplpush st src pq) in
     reach st' /\ Inv st' /\ hd_error (st' pq) = Some x /\
     (forall k, In (tag x) (tags st' k) -> k = pq)).
Proof.
  split; [now apply reach_inv|]. split.
  - intros parse queues pq. pose proof (safe_fetch_reach parse queues pq st Hst) as H.
    split; [exact H | now apply reach_inv].
  - intros src pq rest x Hsrc. cbv zeta.
    assert (Hr : reach (snd (rpoplpush st src pq))) by now apply reach_move.
    pose proof (reach_inv _ Hr) as Hi.
    assert (Hhd : hd_error (snd (rpoplpush st src pq) pq) = Some x).
    { unfold rpoplpush. rewrite Hsrc, unsnoc_app. cbn [snd].
      now rewrite set_list_same. }
    split; [exact Hr|]. split; [exact Hi|]. split; [exact Hhd|].
    intros k Hk. apply (proj2 Hi (tag x) k pq Hk). unfold tags.
    destruct (snd (rpoplpush st src pq) pq) as [|y l]; [discriminate|].
    simpl in Hhd. inversion Hhd; subst. simpl. now left.
Qed.

Lemma no_task_loss_witness :
  let st := rpush (fun _ => []) "tasks:high" (mkItem 1 "t1") in
  reach st /\ st "tasks:high" = [] ++ [mkItem 1 "t1"] /\
  hd_error (snd (rpoplpush st "tasks:high" "tasks:processing:w1") "tasks:processing:w1")
    = Some (mkItem 1 "t1") /\
  (forall k, In 1 (tags (snd (rpoplpush st "tasks:high" "tasks:processing:w1")) k) ->
     k = "tasks:processing:w1").
Proof.
  cbv zeta.
  assert (Hr : reach (rpush (fun _ => []) "tasks:high" (mkItem 1 "t1"))).
  { apply reach_push; [exact reach_empty|]. intros k' H. exact H. }
  assert (Hs : rpush (fun _ => []) "tasks:high" (mkItem 1 "t1") "tasks:high"
               = [] ++ [mkItem 1 "t1"]) by reflexivity.
  destruct (proj2 (proj2 (no_task_loss _ Hr)) "tasks:high" "tasks:processing:w1" [] _ Hs)
    as [_ [_ [Hhd Hone]]].
  split; [exact Hr|]. split; [exact Hs|]. split; [exact Hhd | exact Hone].
Defined.




(** C10.  For a parser that rejects the empty string as [json.loads]
    does, a record whose bytes parse as a dict without a truthy id: when
    [safe_fetch] pops it, it is not returned and not removed, it sits at
    the head of the processing list and the scan moves to the next queue;
    later scans never remove it nor return it; an acknowledgment of other
    bytes leaves it in place; the startup leftover pass removes it once it
    reaches the head of the processing list. *)
Theorem idless_record_stays parse r (Hjson : parse "" = PBad)
    (Hr : parse (raw r) = PDict None) :
  (forall q qs pq st rest, q <> pq -> st q = rest ++ [r] ->
   safe_fetch_from parse (q :: qs) pq st =
   safe_fetch_from parse qs pq (set_list (set_list st q rest) pq (r :: st pq))) /\
  (forall queues pq st, ~ In pq queues -> In r (st pq) ->
   In r (snd (safe_fetch_from parse queues pq st) pq) /\
   (forall task_id q v, fst (safe_fetch_from parse queues pq st) = Some (task_id, q, v) ->
    v <> raw r)) /\
  (forall st pq v, v <> raw r -> In r (st pq) ->
   In r (remove_from_processing st pq v pq)) /\
  (forall st pq l, st pq = r :: l ->
   leftover_step parse st pq = LeftRemoved (set_list st pq l)).
Proof.
  split; [|split; [|split]].
  - intros q qs pq st rest Hq Hst.
    rewrite (safe_fetch_step parse q qs pq st rest r Hq Hst). cbv zeta.
    destruct (String.eqb (raw r) ""); [reflexivity | now rewrite Hr].
  - intros queues pq st Hpq Hin. split.
    + apply safe_fetch_keeps; [rewrite Hr; discriminate | exact Hpq | exact Hin].
    + intros task_id q v Hf Hv. apply safe_fetch_returned in Hf.
      rewrite Hv, Hr in Hf. discriminate.
  - intros st pq v Hv Hin. unfold remove_from_processing, lrem.
    rewrite set_list_same. apply lrem1_keeps; [exact Hin|]. intro H. now apply Hv.
  - intros st pq l Hst. unfold leftover_step, lindex0. rewrite Hst. cbn [hd_error].
    destruct (String.eqb_spec (raw r) "") as [He|_].
    { rewrite He, Hjson in Hr. discriminate. }
    rewrite Hr. unfold remove_from_processing, lrem. rewrite Hst. simpl.
    now rewrite String.eqb_refl.
Qed.

Lemma idless_record_stays_witness :
  demo_parse "" = PBad /\ demo_parse (raw (mkItem 1 "noid")) = PDict None /\
  leftover_step demo_parse (fun _ => [mkItem 1 "noid"]) "tasks:processing:w1"
    = LeftRemoved (set_list (fun _ => [mkItem 1 "noid"]) "tasks:processing:w1" []).
Proof.
  assert (Hj : demo_parse "" = PBad) by reflexivity.
  assert (H : demo_parse (raw (mkItem 1 "noid")) = PDict None) by reflexivity.
  split; [exact Hj|]. split; [exact H|].
  exact (proj2 (proj2 (proj2 (idless_record_stays demo_parse (mkItem 1 "noid") Hj H)))
           (fun _ => [mkItem 1 "noid"]) "tasks:processing:w1" [] eq_refl).
Defined.

End QueueClaims.

(* ================================================================== *)
(** * Further properties of the code *)

Module LockExtras.
Import LockStore LockFacts.

Lemma acquire_success ls rid owner ttl ls1 :
  acquire_lock ls rid owner ttl = (true, ls1) ->
  (0 < ttl)%Z /\ live ls ("lock:" ++ rid) = false /\
  ls1 = mkL (now ls) (upd (locks ls) ("lock:" ++ rid) (Some (owner, now ls + ttl)%Z)).
Proof.
  unfold acquire_lock, redis_set_nx_ex.
  destruct (Z.leb_spec ttl 0) as [Hle|Hgt]; [discriminate|].
  destruct (live ls ("lock:" ++ rid)); [discriminate|].
  intro Heq. inversion Heq. auto.
Qed.

Lemma live_after_tick ls1 rid owner e d :
  locks ls1 ("lock:" ++ rid) = Some (owner, e) ->
  live (tick ls1 d) ("lock:" ++ rid) = (now ls1 + d <? e)%Z.
Proof. intro H. unfold live, tick. cbn [now locks]. now rewrite H. Qed.

(** Mutual exclusion of [StateSynchronizer.acquire_lock]: once an owner
    holds the lock of a resource, every acquire of that resource fails
    during the TTL, and an acquire with a positive TTL succeeds once the
    TTL has run out. *)
Theorem acquire_lock_exclusive ls rid a b ttl ttl' ls1 d
    (Ha : acquire_lock ls rid a ttl = (true, ls1)) (Hd : (0 <= d)%Z) :
  ((d < ttl)%Z -> fst (acquire_lock (tick ls1 d) rid b ttl') = false) /\
  ((ttl <= d)%Z -> (0 < ttl')%Z -> fst (acquire_lock (tick ls1 d) rid b ttl') = true).
Proof.
  destruct (acquire_success _ _ _ _ _ Ha) as [Httl [_ ->]].
  assert (Hk : locks (mkL (now ls) (upd (locks ls) ("lock:" ++ rid)
                 (Some (a, now ls + ttl)%Z))) ("lock:" ++ rid) = Some (a, now ls + ttl)%Z)
    by apply upd_same.
  pose proof (live_after_tick _ rid a _ d Hk) as Hl. cbn [now] in Hl.
  unfold acquire_lock, redis_set_nx_ex. split.
  - intro Hlt. destruct (ttl' <=? 0)%Z; [reflexivity|].
    rewrite Hl. replace (now ls + d <? now ls + ttl)%Z with true
      by (symmetry; apply Z.ltb_lt; lia). reflexivity.
  - intros Hge Hpos. replace (ttl' <=? 0)%Z with false by (symmetry; apply Z.leb_gt; lia).
    rewrite Hl. replace (now ls + d <? now ls + ttl)%Z with false
      by (symmetry; apply Z.ltb_ge; lia). reflexivity.
Qed.

Lemma acquire_lock_exclusive_witness :
  acquire_lock (empty_at 0) "t1" "w1" 300
    = (true, snd (acquire_lock (empty_at 0) "t1" "w1" 300)) /\
  fst (acquire_lock (tick (snd (acquire_lock (empty_at 0) "t1" "w1" 300)) 100) "t1" "w2" 300)
    = false.
Proof.
  assert (H : acquire_lock (empty_at 0) "t1" "w1" 300
                = (true, snd (acquire_lock (empty_at 0) "t1" "w1" 300))) by reflexivity.
  split; [exact H|].
  exact (proj1 (acquire_lock_exclusive _ _ _ "w2" _ 300 _ 100 H ltac:(lia)) ltac:(lia)).
Defined.

(** Acquire, release, acquire: the owner's release within the TTL frees
    the lock at once, so another owner's acquire (positive TTL) succeeds;
    a release by anyone else leaves the store unchanged. *)
Theorem acquire_release_acquire ls rid a b ttl ttl' ls1 d
    (Ha : acquire_lock ls rid a ttl = (true, ls1)) (Hd : (0 <= d < ttl)%Z)
    (Hpos : (0 < ttl')%Z) :
  live (release_lock (tick ls1 d) rid a) ("lock:" ++ rid) = false /\
  fst (acquire_lock (release_lock (tick ls1 d) rid a) rid b ttl') = true /\
  (b <> a -> release_lock (tick ls1 d) rid b = tick ls1 d).
Proof.
  destruct (acquire_success _ _ _ _ _ Ha) as [Httl [_ ->]].
  assert (Hget : forall o, redis_get (tick (mkL (now ls) (upd (locks ls) ("lock:" ++ rid)
                   (Some (a, now ls + ttl)%Z))) d) ("lock:" ++ rid) = Some a /\
                   release_read (tick (mkL (now ls) (upd (locks ls) ("lock:" ++ rid)
                   (Some (a, now ls + ttl)%Z))) d) rid o = String.eqb a o).
  { intro o. unfold release_read, redis_get, live, tick. cbn [now locks].
    rewrite upd_same. replace (now ls + d <? now ls + ttl)%Z with true
      by (symmetry; apply Z.ltb_lt; lia). split; reflexivity. }
  assert (Hrel : live (release_lock (tick (mkL (now ls) (upd (locks ls) ("lock:" ++ rid)
                   (Some (a, now ls + ttl)%Z))) d) rid a) ("lock:" ++ rid) = false).
  { unfold release_lock. rewrite (proj2 (Hget a)), String.eqb_refl.
    unfold release_finish, redis_del, live. cbn [locks]. now rewrite upd_same. }
  split; [exact Hrel|]. split.
  - unfold acquire_lock at 1, redis_set_nx_ex.
    replace (ttl' <=? 0)%Z with false by (symmetry; apply Z.leb_gt; lia).
    now rewrite Hrel.
  - intro Hne. unfold release_lock. rewrite (proj2 (Hget b)).
    destruct (String.eqb_spec a b); [congruence | reflexivity].
Qed.

Lemma acquire_release_acquire_witness :
  acquire_lock (empty_at 0) "t1" "w1" 300
    = (true, snd (acquire_lock (empty_at 0) "t1" "w1" 300)) /\
  fst (acquire_lock (release_lock (tick (snd (acquire_lock (empty_at 0) "t1" "w1" 300)) 5)
         "t1" "w1") "t1" "w2" 300) = true.
Proof.
  assert (H : acquire_lock (empty_at 0) "t1" "w1" 300
                = (true, snd (acquire_lock (empty_at 0) "t1" "w1" 300))) by reflexivity.
  split; [exact H|].
  exact (proj1 (proj2 (acquire_release_acquire _ _ _ "w2" _ 300 _ 5 H ltac:(lia) ltac:(lia)))).
Defined.

(** [RedisManager.heartbeat] keeps alive the lock that
    [RedisManager.acquire_lock] takes: after a successful acquire with the
    default TTL, the lock is live and owned by the manager's worker id
    through any number of 10-second heartbeat rounds. *)
Lemma manager_heartbeat_round ls w t e :
  t <> "" -> locks ls ("lock:task:" ++ t) = Some (w, e) -> (now ls < e)%Z ->
  exists e', locks (tick (heartbeat ls t) 10) ("lock:task:" ++ t) = Some (w, e') /\
             (now (tick (heartbeat ls t) 10) < e')%Z.
Proof.
  intros Ht Hk Hlt. unfold heartbeat.
  destruct (String.eqb_spec t ""); [contradiction|].
  unfold redis_expire. rewrite Hk. unfold live. rewrite Hk.
  replace (now ls <? e)%Z with true by (symmetry; now apply Z.ltb_lt).
  exists (now ls + 300)%Z. unfold tick. cbn [now locks]. rewrite upd_same.
  split; [reflexivity | lia].
Qed.

Theorem manager_heartbeat_keeps_lock ls w t ls1 n
    (Ht : t <> "") (Ha : ManagerLock.acquire_lock ls w t 300 = (true, ls1)) :
  redis_get (heartbeat_rounds n ls1 t) ("lock:task:" ++ t) = Some w.
Proof.
  assert (Hinit : exists e, locks ls1 ("lock:task:" ++ t) = Some (w, e) /\ (now ls1 < e)%Z).
  { revert Ha. unfold ManagerLock.acquire_lock, redis_set_nx_ex. cbn [Z.leb Z.compare].
    destruct (live ls ("lock:task:" ++ t)); [discriminate|]. intro H. inversion H; subst.
    exists (now ls + 300)%Z. cbn [now locks]. rewrite upd_same. split; [reflexivity | lia]. }
  clear Ha. revert ls1 Hinit. induction n as [|n IH]; intros ls1 [e [He Hlt]].
  - unfold redis_get, live. cbn [heartbeat_rounds]. rewrite He.
    replace (now ls1 <? e)%Z with true by (symmetry; now apply Z.ltb_lt). reflexivity.
  - cbn [heartbeat_rounds]. apply IH. now apply (manager_heartbeat_round ls1 w t e).
Qed.

Lemma manager_heartbeat_keeps_lock_witness :
  "t1" <> "" /\
  ManagerLock.acquire_lock (empty_at 0) "w1" "t1" 300
    = (true, snd (ManagerLock.acquire_lock (empty_at 0) "w1" "t1" 300)) /\
  redis_get (heartbeat_rounds 100 (snd (ManagerLock.acquire_lock (empty_at 0) "w1" "t1" 300)) "t1")
    ("lock:task:" ++ "t1") = Some "w1".
Proof.
  assert (H1 : "t1" <> "") by discriminate.
  assert (H2 : ManagerLock.acquire_lock (empty_at 0) "w1" "t1" 300
    = (true, snd (ManagerLock.acquire_lock (empty_at 0) "w1" "t1" 300))) by reflexivity.
  split; [exact H1|]. split; [exact H2|].
  exact (manager_heartbeat_keeps_lock _ _ _ _ 100 H1 H2).
Defined.

(** [RedisManager.release_lock] within the TTL: the worker that acquired
    the [lock:task:] key deletes it, so it reads as absent and can be
    acquired again; a manager with another worker id leaves the store
    unchanged. *)
Theorem manager_release_own_lock ls w w' t ttl ls1 d
    (Ha : ManagerLock.acquire_lock ls w t ttl = (true, ls1)) (Hd : (0 <= d < ttl)%Z) :
  redis_get (ManagerLock.release_lock (tick ls1 d) w t) ("lock:task:" ++ t) = None /\
  (forall ttl', (0 < ttl')%Z ->
     fst (ManagerLock.acquire_lock (ManagerLock.release_lock (tick ls1 d) w t) w' t ttl') = true) /\
  (w' <> w -> ManagerLock.release_lock (tick ls1 d) w' t = tick ls1 d).
Proof.
  assert (Hinit : (0 < ttl)%Z /\
     ls1 = mkL (now ls) (upd (locks ls) ("lock:task:" ++ t) (Some (w, now ls + ttl)%Z))).
  { revert Ha. unfold ManagerLock.acquire_lock, redis_set_nx_ex. cbv zeta.
    destruct (Z.leb_spec ttl 0) as [Hle|Hgt]; [discriminate|].
    destruct (live ls ("lock:task:" ++ t)); [discriminate|].
    intro Heq. injection Heq as Hls1. split; [lia | exact (eq_sym Hls1)]. }
  destruct Hinit as [Hgt Hls1].
  assert (Hget : redis_get (tick ls1 d) ("lock:task:" ++ t) = Some w).
  { rewrite Hls1. unfold redis_get, live, tick. cbn [now locks]. rewrite upd_same.
    replace (now ls + d <? now ls + ttl)%Z with true by (symmetry; apply Z.ltb_lt; lia).
    reflexivity. }
  assert (Hrel : live (ManagerLock.release_lock (tick ls1 d) w t) ("lock:task:" ++ t) = false).
  { unfold ManagerLock.release_lock. rewrite Hget, String.eqb_refl.
    unfold redis_del, live. cbn [locks]. now rewrite upd_same. }
  split; [|split].
  - unfold redis_get. now rewrite Hrel.
  - intros ttl' Hpos. unfold ManagerLock.acquire_lock, redis_set_nx_ex. cbv zeta.
    replace (ttl' <=? 0)%Z with false by (symmetry; apply Z.leb_gt; lia).
    now rewrite Hrel.
  - intro Hne. unfold ManagerLock.release_lock. rewrite Hget.
    destruct (String.eqb_spec w w'); [congruence | reflexivity].
Qed.

Lemma manager_release_own_lock_witness :
  ManagerLock.acquire_lock (empty_at 0) "w1" "t1" 300
    = (true, snd (ManagerLock.acquire_lock (empty_at 0) "w1" "t1" 300)) /\
  redis_get (ManagerLock.release_lock (tick (snd (ManagerLock.acquire_lock (empty_at 0) "w1" "t1" 300)) 20)
    "w1" "t1") ("lock:task:" ++ "t1") = None.
Proof.
  assert (H : ManagerLock.acquire_lock (empty_at 0) "w1" "t1" 300
    = (true, snd (ManagerLock.acquire_lock (empty_at 0) "w1" "t1" 300))) by reflexivity.
  split; [exact H|].
  exact (proj1 (manager_release_own_lock _ _ "w2" _ _ _ 20 H ltac:(lia))).
Defined.

End LockExtras.

Module QueueExtras.
Import Queues QueueOps QueueFacts QueueLemmas.
Local Open Scope list_scope.

Lemma lrem1_absent v l : ~ In v (map raw l) -> lrem1 v l = l.
Proof.
  induction l as [|x l IH]; simpl; [reflexivity|]. intro Hn.
  destruct (String.eqb_spec (raw x) v); [tauto|]. f_equal. auto.
Qed.

Lemma lrem1_length v l : In v (map raw l) -> S (length (lrem1 v l)) = length l.
Proof.
  induction l as [|x l IH]; simpl; [tauto|]. intros [Heq|Hin].
  - now rewrite Heq, String.eqb_refl.
  - destruct (String.eqb (raw x) v); [reflexivity|]. simpl. now rewrite IH.
Qed.

Lemma lrem1_head x l : lrem1 (raw x) (x :: l) = l.
Proof. simpl. now rewrite String.eqb_refl. Qed.

(** Bytes that parse to anything but [PBad] are not the empty string, for
    a parser that rejects it. *)
Lemma parsed_nonempty parse v p :
  parse "" = PBad -> parse v = p -> p <> PBad -> String.eqb v "" = false.
Proof.
  intros Hj Hv Hp. destruct (String.eqb_spec v ""); [|reflexivity].
  subst v. congruence.
Qed.

(** Within one queue the order is last in, first out: [submit_task] appends
    with RPUSH and [safe_fetch] takes the tail with RPOPLPUSH, so of two
    valid records pushed onto the first queue scanned, the later one is
    fetched first and the earlier one by the next call (for a parser that
    rejects the empty string, as [json.loads] does). *)
Theorem safe_fetch_lifo parse q qs pq st a b ida idb
    (Hjson : parse "" = PBad) (Hq : q <> pq) (Ha : parse (raw a) = PDict (Some ida))
    (Hb : parse (raw b) = PDict (Some idb)) :
  let st2 := rpush (rpush st q a) q b in
  fst (safe_fetch_from parse (q :: qs) pq st2) = Some (idb, q, raw b) /\
  fst (safe_fetch_from parse (q :: qs) pq (snd (safe_fetch_from parse (q :: qs) pq st2)))
    = Some (ida, q, raw a).
Proof.
  cbv zeta.
  assert (H2 : rpush (rpush st q a) q b q = (st q ++ [a]) ++ [b]).
  { unfold rpush. rewrite !set_list_same. reflexivity. }
  rewrite (safe_fetch_step parse q qs pq _ _ b Hq H2). cbv zeta.
  rewrite (parsed_nonempty parse _ _ Hjson Hb ltac:(discriminate)), Hb.
  split; [reflexivity|]. cbn [snd].
  assert (H1 : set_list (set_list (rpush (rpush st q a) q b) q (st q ++ [a])) pq
                 (b :: rpush (rpush st q a) q b pq) q = st q ++ [a]).
  { rewrite set_list_at. destruct (String.eqb_spec q pq); [congruence|].
    apply set_list_same. }
  rewrite (safe_fetch_step parse q qs pq _ _ a Hq H1). cbv zeta.
  now rewrite (parsed_nonempty parse _ _ Hjson Ha ltac:(discriminate)), Ha.
Qed.

Lemma safe_fetch_lifo_witness :
  demo_parse "" = PBad /\ "tasks:high" <> "processing:w1" /\ demo_parse "a" = PDict (Some "a") /\
  demo_parse "b" = PDict (Some "b") /\
  fst (safe_fetch_from demo_parse default_queues "processing:w1"
         (rpush (rpush (fun _ => []) "tasks:high" (mkItem 1 "a")) "tasks:high" (mkItem 2 "b")))
    = Some ("b", "tasks:high", "b").
Proof.
  assert (Hq : "tasks:high" <> "processing:w1") by discriminate.
  assert (Ha : demo_parse (raw (mkItem 1 "a")) = PDict (Some "a")) by reflexivity.
  assert (Hb : demo_parse (raw (mkItem 2 "b")) = PDict (Some "b")) by reflexivity.
  assert (Hj : demo_parse "" = PBad) by reflexivity.
  split; [exact Hj|]. split; [exact Hq|]. split; [exact Ha|]. split; [exact Hb|].
  exact (proj1 (safe_fetch_lifo demo_parse "tasks:high" _ "processing:w1" (fun _ => [])
                  _ _ _ _ Hj Hq Ha Hb)).
Defined.

(** [safe_fetch] reads only its configured queues: when they are all
    empty it returns no task and changes nothing, whatever other keys hold;
    in particular a record that [submit_task] pushed onto its default queue
    [course_tasks:default] is never fetched by the default scan. *)
Theorem safe_fetch_only_reads_its_queues parse queues pq st
    (Hempty : forall q, In q queues -> st q = []) :
  safe_fetch_from parse queues pq st = (None, st).
Proof.
  induction queues as [|q qs IH]; [reflexivity|]. simpl.
  rewrite (rpoplpush_empty st q pq (Hempty q (or_introl eq_refl))).
  apply IH. intros q' Hq'. apply Hempty. now right.
Qed.

Lemma safe_fetch_only_reads_its_queues_witness :
  (forall q, In q default_queues ->
     rpush (fun _ => []) "course_tasks:default" (mkItem 1 "t1") q = []) /\
  safe_fetch demo_parse "processing:w1" (rpush (fun _ => []) "course_tasks:default" (mkItem 1 "t1"))
    = (None, rpush (fun _ => []) "course_tasks:default" (mkItem 1 "t1")).
Proof.
  assert (H : forall q, In q default_queues ->
     rpush (fun _ => []) "course_tasks:default" (mkItem 1 "t1") q = []).
  { intros q Hq. simpl in Hq.
    repeat (destruct Hq as [<-|Hq]; [reflexivity|]). contradiction. }
  split; [exact H|].
  exact (safe_fetch_only_reads_its_queues demo_parse default_queues "processing:w1" _ H).
Defined.

Lemma blpop_skip st pre rest :
  (forall p, In p pre -> st p = []) -> blpop st (pre ++ rest) = blpop st rest.
Proof.
  induction pre as [|p pre IH]; intro Hpre; [reflexivity|]. simpl.
  rewrite (Hpre p (or_introl eq_refl)). apply IH. intros p' Hp'. apply Hpre. now right.
Qed.

(** [fetch_task] (BLPOP) skips the empty queues listed first and removes
    the head of the first non-empty queue whatever it holds: a record with
    a truthy id is returned, any other record (invalid JSON, no id, not a
    dict) yields [None] and is then held by no key at all. *)
Theorem fetch_task_drops_invalid parse pre q qs st x l
    (Hinv : Inv st) (Hpre : forall p, In p pre -> st p = []) (Hx : st q = x :: l) :
  fetch_task parse (pre ++ q :: qs) st =
    (match parse (raw x) with
     | PDict (Some task_id) => Some (task_id, q)
     | _ => None
     end, set_list st q l) /\
  forall k, ~ In (tag x) (tags (set_list st q l) k).
Proof.
  split.
  - unfold fetch_task. rewrite (blpop_skip st pre (q :: qs) Hpre). simpl. rewrite Hx.
    destruct (parse (raw x)) as [| |[id|]]; reflexivity.
  - intros k Hin. destruct Hinv as [Hnd Hone].
    unfold tags in Hin. rewrite set_list_at in Hin.
    destruct (String.eqb_spec k q) as [Heq|Hne].
    + subst k. specialize (Hnd q). unfold tags in Hnd. rewrite Hx in Hnd. cbn [map] in Hnd.
      now apply NoDup_cons_iff in Hnd as [Hn _].
    + apply Hne. apply (Hone (tag x)); [exact Hin|].
      unfold tags. rewrite Hx. now left.
Qed.

Lemma fetch_task_drops_invalid_witness :
  Inv (fun k => if String.eqb k "tasks:medium" then [mkItem 1 "noid"] else []) /\
  fst (fetch_task demo_parse default_queues
         (fun k => if String.eqb k "tasks:medium" then [mkItem 1 "noid"] else [])) = None.
Proof.
  assert (Hinv : Inv (fun k => if String.eqb k "tasks:medium" then [mkItem 1 "noid"] else [])).
  { split.
    - intro k. unfold tags. destruct (String.eqb k "tasks:medium");
        repeat constructor; simpl; tauto.
    - intros t k1 k2. unfold tags.
      destruct (String.eqb_spec k1 "tasks:medium"), (String.eqb_spec k2 "tasks:medium");
        simpl; intuition congruence. }
  assert (Hpre : forall p, In p ["tasks:high"] ->
    (fun k => if String.eqb k "tasks:medium" then [mkItem 1 "noid"] else []) p = []).
  { intros p [<-|[]]. reflexivity. }
  split; [exact Hinv|].
  exact (f_equal fst (proj1 (fetch_task_drops_invalid demo_parse ["tasks:high"] "tasks:medium"
           ["tasks:low"; "tasks:default"] _ (mkItem 1 "noid") [] Hinv Hpre eq_refl))).
Defined.

(** [remove_from_processing] issues [LREM pq 1 raw]: when the bytes are in
    the processing list exactly one element goes, when they are not (for
    instance a re-serialized [json.dumps] that differs from the stored
    bytes) the list is unchanged; no other key is touched. *)
Theorem remove_from_processing_effect st pq v :
  (In v (map raw (st pq)) ->
     S (length (remove_from_processing st pq v pq)) = length (st pq)) /\
  (~ In v (map raw (st pq)) -> remove_from_processing st pq v pq = st pq) /\
  (forall k, k <> pq -> remove_from_processing st pq v k = st k).
Proof.
  unfold remove_from_processing, lrem. split; [|split].
  - rewrite set_list_same. apply lrem1_length.
  - rewrite set_list_same. apply lrem1_absent.
  - intros k Hk. rewrite set_list_at. destruct (String.eqb_spec k pq); [contradiction|reflexivity].
Qed.

(** Fetch then acknowledge: a valid record taken by [safe_fetch] from the
    tail of the first queue and then removed with [remove_from_processing]
    of the returned bytes leaves the processing list exactly as it was and
    the queue without the record (for a parser that rejects the empty
    string, as [json.loads] does). *)
Theorem fetch_then_remove_restores parse q qs pq st rest x task_id
    (Hjson : parse "" = PBad) (Hq : q <> pq) (Hst : st q = rest ++ [x]) (Hx : parse (raw x) = PDict (Some task_id)) :
  let (res, st1) := safe_fetch_from parse (q :: qs) pq st in
  res = Some (task_id, q, raw x) /\
  remove_from_processing st1 pq (raw x) pq = st pq /\
  remove_from_processing st1 pq (raw x) q = rest /\
  (forall k, k <> q -> k <> pq -> remove_from_processing st1 pq (raw x) k = st k).
Proof.
  rewrite (safe_fetch_step parse q qs pq st rest x Hq Hst). cbv zeta.
  rewrite (parsed_nonempty parse _ _ Hjson Hx ltac:(discriminate)), Hx.
  unfold remove_from_processing, lrem. rewrite !set_list_same, lrem1_head.
  split; [reflexivity|]. split; [reflexivity|]. split.
  - rewrite !set_list_at. destruct (String.eqb_spec q pq); [congruence|].
    now rewrite String.eqb_refl.
  - intros k Hk1 Hk2. rewrite !set_list_at.
    destruct (String.eqb_spec k pq); [contradiction|].
    destruct (String.eqb_spec k q); [contradiction|reflexivity].
Qed.

Lemma fetch_then_remove_restores_witness :
  demo_parse "" = PBad /\ "tasks:high" <> "processing:w1" /\
  (fun k => if String.eqb k "tasks:high" then [mkItem 1 "t1"] else []) "tasks:high"
    = [] ++ [mkItem 1 "t1"] /\
  demo_parse (raw (mkItem 1 "t1")) = PDict (Some "t1") /\
  remove_from_processing
    (snd (safe_fetch demo_parse "processing:w1"
       (fun k => if String.eqb k "tasks:high" then [mkItem 1 "t1"] else [])))
    "processing:w1" "t1" "processing:w1" = [].
Proof.
  assert (Hq : "tasks:high" <> "processing:w1") by discriminate.
  assert (Hst : (fun k => if String.eqb k "tasks:high" then [mkItem 1 "t1"] else []) "tasks:high"
    = [] ++ [mkItem 1 "t1"]) by reflexivity.
  assert (Hx : demo_parse (raw (mkItem 1 "t1")) = PDict (Some "t1")) by reflexivity.
  assert (Hj : demo_parse "" = PBad) by reflexivity.
  split; [exact Hj|]. split; [exact Hq|]. split; [exact Hst|]. split; [exact Hx|].
  pose proof (fetch_then_remove_restores demo_parse "tasks:high"
                ["tasks:medium"; "tasks:low"; "tasks:default"] "processing:w1" _ [] _ "t1"
                Hj Hq Hst Hx) as H.
  unfold safe_fetch, default_queues.
  destruct (safe_fetch_from demo_parse _ "processing:w1" _) as [res st1].
  exact (proj1 (proj2 H)).
Defined.

(** The leftover pass clears a processing list made only of entries it
    removes itself: when every entry is non-empty bytes that are invalid
    JSON or a dict without an id, the [while True] loop ends after one
    round per entry plus the final [LINDEX] that finds the list empty, and
    only the processing list has changed. *)
Theorem leftovers_cleared parse handle st pq fuel
    (Hall : forall x, In x (st pq) -> raw x <> "" /\
              (parse (raw x) = PBad \/ parse (raw x) = PDict None))
    (Hfuel : length (st pq) < fuel) :
  exists st', process_leftovers parse handle fuel st pq = Some st' /\
    st' pq = [] /\ forall k, k <> pq -> st' k = st k.
Proof.
  revert Hall Hfuel. remember (st pq) as l eqn:Hl. revert st fuel Hl.
  induction l as [|x l IH]; intros st fuel Hl Hall Hfuel;
    (destruct fuel as [|fuel]; [simpl in Hfuel; lia|]).
  - exists st. simpl. unfold leftover_step, lindex0. rewrite <- Hl. auto.
  - assert (Hstep : leftover_step parse st pq = LeftRemoved (set_list st pq l)).
    { unfold leftover_step, lindex0. rewrite <- Hl. cbn [hd_error].
      destruct (Hall x (or_introl eq_refl)) as [Hne [Hp|Hp]];
        apply String.eqb_neq in Hne; rewrite Hne, Hp;
        unfold remove_from_processing, lrem; rewrite <- Hl, lrem1_head; reflexivity. }
    simpl. rewrite Hstep.
    destruct (IH (set_list st pq l) fuel) as [st' [Hr [Hpq Hk]]].
    + now rewrite set_list_same.
    + intros y Hy. apply Hall. now right.
    + simpl in Hfuel. lia.
    + exists st'. split; [exact Hr|]. split; [exact Hpq|].
      intros k Hne. rewrite Hk by exact Hne. rewrite set_list_at.
      destruct (String.eqb_spec k pq); [contradiction|reflexivity].
Qed.

Lemma leftovers_cleared_witness :
  exists st', process_leftovers demo_parse (fun st _ _ => st) 3
    (fun k => if String.eqb k "processing:w1" then [mkItem 1 "noid"; mkItem 2 "bad"] else [])
    "processing:w1" = Some st' /\ st' "processing:w1" = [].
Proof.
  assert (Hall : forall x, In x ((fun k => if String.eqb k "processing:w1"
              then [mkItem 1 "noid"; mkItem 2 "bad"] else []) "processing:w1") ->
            raw x <> "" /\ (demo_parse (raw x) = PBad \/ demo_parse (raw x) = PDict None)).
  { intros x Hx. simpl in Hx. destruct Hx as [<-|[<-|[]]]; split;
      try discriminate; [right|left]; reflexivity. }
  destruct (leftovers_cleared demo_parse (fun st _ _ => st) _ "processing:w1" 3 Hall
              ltac:(simpl; lia)) as [st' [H1 [H2 _]]].
  exists st'. split; [exact H1 | exact H2].
Defined.

(** A JSON value that is not a dict at the head of the processing list
    makes [.get] raise inside the loop; the handler passes and the next
    round reads the same head, so the leftover pass never ends (for a
    parser that rejects the empty string, as [json.loads] does). *)
Theorem leftovers_spin_on_non_dict parse handle st pq x l fuel
    (Hjson : parse "" = PBad) (Hhead : st pq = x :: l) (Hx : parse (raw x) = PNotDict) :
  process_leftovers parse handle fuel st pq = None.
Proof.
  induction fuel as [|fuel IH]; [reflexivity|]. simpl.
  unfold leftover_step, lindex0. rewrite Hhead. cbn [hd_error].
  rewrite (parsed_nonempty parse _ _ Hjson Hx ltac:(discriminate)), Hx. exact IH.
Qed.

Lemma leftovers_spin_on_non_dict_witness :
  process_leftovers demo_parse (fun st _ _ => st) 1000
    (fun k => if String.eqb k "processing:w1" then [mkItem 1 "[1]"] else []) "processing:w1"
    = None.
Proof.
  exact (leftovers_spin_on_non_dict demo_parse (fun st _ _ => st) _ "processing:w1"
           (mkItem 1 "[1]") [] 1000 eq_refl eq_refl eq_refl).
Defined.

End QueueExtras.

Module RetryExtras.
Import Retry.
Local Open Scope Q_scope.

(** The backoff never falls below the undelayed exponential value while
    that value is within [max_delay] (what [test_backoff] checks for
    [base_delay = 1], [max_delay = 10] at retries 0 and 2), and it is
    exactly [max_delay] once the exponential value has reached the cap,
    whatever the jitter draw. *)
Theorem backoff_between_delay_and_cap base_delay max_delay n u
    (Hbase : 0 <= base_delay) (Hu : 0 <= u < 1) :
  (delay base_delay n <= max_delay ->
     delay base_delay n <= get_backoff_time base_delay max_delay n u) /\
  (max_delay <= delay base_delay n ->
     get_backoff_time base_delay max_delay n u == max_delay).
Proof.
  pose proof (RetryClaims.delay_nonneg base_delay n Hbase) as Hd.
  unfold get_backoff_time, uniform.
  set (d := delay base_delay n) in *.
  assert (Hj0 : 0 <= ((1 # 10) * d - 0) * u) by (apply Qmult_le_0_compat; lra).
  split.
  - intro Hle. apply Q.min_glb; lra.
  - intro Hge. apply Q.min_r. lra.
Qed.

Lemma backoff_between_delay_and_cap_witness :
  (0 <= 1 /\ 0 <= 1 # 2 < 1) /\
  delay 1 2 <= get_backoff_time 1 10 2 (1 # 2) /\ 4 <= get_backoff_time 1 10 2 (1 # 2).
Proof.
  assert (Hd : delay 1 2 == 4) by reflexivity.
  assert (H : delay 1 2 <= get_backoff_time 1 10 2 (1 # 2)).
  { apply (proj1 (backoff_between_delay_and_cap 1 10 2 (1 # 2) ltac:(lra) ltac:(split; lra))).
    rewrite Hd. lra. }
  split; [split; [lra | split; lra]|]. split; [exact H|]. rewrite <- Hd. exact H.
Defined.

End RetryExtras.

Module WorkerExtras.
Import Worker WorkerFacts.

Lemma retry_loop_shape_gen e max_retries fuel r :
  fuel + r = max_retries ->
  exists k, r <= k <= max_retries /\
    (forall i, r <= i < k -> exists err, execute e i = inr err) /\
    (k < max_retries -> exists res, execute e k = inl res) /\
    retry_loop e max_retries fuel r =
      ((retry_trace r (k - r) ++ [EvExec k])%list,
       match execute e k with inl res => Ret res | inr err => Raise err end).
Proof.
  revert r. induction fuel as [|fuel IH]; intros r Hf.
  - exists r. simpl in Hf. subst r. split; [lia|]. split; [intros; lia|].
    split; [lia|]. rewrite Nat.sub_diag. simpl.
    destruct (execute e max_retries) as [res|err]; [reflexivity|].
    unfold Retry.should_retry. now rewrite Nat.ltb_irrefl.
  - simpl. destruct (execute e r) as [res|err] eqn:Hr.
    + exists r. split; [lia|]. split; [intros; lia|]. split; [eauto|].
      rewrite Nat.sub_diag, Hr. reflexivity.
    + unfold Retry.should_retry.
      assert (Hlt : Nat.ltb r max_retries = true) by (apply Nat.ltb_lt; lia).
      rewrite Hlt.
      destruct (IH (S r) ltac:(lia)) as [k [Hk [Hfail [Hok Heq]]]].
      rewrite Heq. exists k. split; [lia|]. split.
      * intros i Hi. destruct (Nat.eq_dec i r) as [->|Hne]; [eauto|].
        apply Hfail. lia.
      * split; [exact Hok|].
        replace (k - r) with (S (k - S r)) by lia. reflexivity.
Qed.

(** [_process_task_with_retry] calls the Executor with attempts
    0, 1, ..., k for some [k <= max_retries]: every attempt before [k]
    failed and was followed by a backoff wait and a [retrying]
    publication; the loop stops at the first success, or after attempt
    [max_retries] fails, and then returns that result or re-raises that
    error. *)
Theorem process_task_with_retry_shape e max_retries :
  exists k, k <= max_retries /\
    (forall i, i < k -> exists err, execute e i = inr err) /\
    (k < max_retries -> exists res, execute e k = inl res) /\
    process_task_with_retry e max_retries =
      ((retry_trace 0 k ++ [EvExec k])%list,
       match execute e k with inl res => Ret res | inr err => Raise err end).
Proof.
  destruct (retry_loop_shape_gen e max_retries max_retries 0 ltac:(lia))
    as [k [Hk [Hfail [Hok Heq]]]].
  exists k. split; [lia|]. split; [intros i Hi; apply Hfail; lia|].
  split; [exact Hok|]. unfold process_task_with_retry. rewrite Heq.
  now rewrite Nat.sub_0_r.
Qed.

End WorkerExtras.

Module StateExtras.
Import StateStore.

Lemma alookup_aset h g v f :
  alookup (aset h g v) f = if String.eqb g f then Some v else alookup h f.
Proof.
  induction h as [|[g' w] r IH]; simpl.
  - destruct (String.eqb g f); reflexivity.
  - destruct (String.eqb_spec g' g) as [->|Hne]; simpl.
    + destruct (String.eqb g f); reflexivity.
    + rewrite IH. destruct (String.eqb_spec g' f), (String.eqb_spec g f); congruence.
Qed.

Lemma append_cancel_l (p a b : string) : (p ++ a = p ++ b)%string -> a = b.
Proof. induction p as [|c p IH]; simpl; [auto|]. intro H. injection H as H. auto. Qed.

Lemma append_cancel_r (a b q : string) : (a ++ q = b ++ q)%string -> a = b.
Proof.
  revert b. induction a as [|c a IH]; intros [|c' b] Heq; simpl in Heq.
  - reflexivity.
  - exfalso.
    assert (Hl : String.length q = String.length (String c' (b ++ q))) by (f_equal; exact Heq).
    simpl in Hl. rewrite LockFacts.length_append_str in Hl. lia.
  - exfalso.
    assert (Hl : String.length (String c (a ++ q)) = String.length q) by (f_equal; exact Heq).
    simpl in Hl. rewrite LockFacts.length_append_str in Hl. lia.
  - injection Heq as Hc Heq. subst c'. f_equal. now apply IH.
Qed.

Lemma state_key_inj t t' :
  ("task:" ++ t' ++ ":state")%string = ("task:" ++ t ++ ":state")%string -> t' = t.
Proof. intro Heq. apply append_cancel_l in Heq. now apply append_cancel_r in Heq. Qed.

Lemma get_state_update s now w t t' status rc extra :
  get_state (update_state s now w t status rc extra) t' =
  if String.eqb t' t
  then hset_mapping (get_state s t)
         (match extra with
          | [] => [("status", VS status); ("last_update", VN now);
                   ("retry_count", VN rc); ("worker_id", VS w)]
          | _ => fold_left (fun acc fv => aset acc (fst fv) (snd fv)) extra
                   [("status", VS status); ("last_update", VN now);
                    ("retry_count", VN rc); ("worker_id", VS w)]
          end)
  else get_state s t'.
Proof.
  unfold get_state, update_state, set_hash. cbn [hashes].
  destruct (String.eqb_spec t' t) as [->|Hne].
  - now rewrite String.eqb_refl.
  - destruct (String.eqb_spec ("task:" ++ t' ++ ":state") ("task:" ++ t ++ ":state")) as [Heq|];
      [|reflexivity].
    exfalso. apply Hne. now apply state_key_inj.
Qed.

Ltac eqb_lits :=
  repeat match goal with
  | |- context [String.eqb ?a ?b] =>
      let x := eval vm_compute in (String.eqb a b) in
      match x with
      | true => change (String.eqb a b) with true
      | false => change (String.eqb a b) with false
      end
  end.

Ltac norm_mapping :=
  unfold data_dict, hset_mapping;
  repeat progress (cbn [fold_left fst snd aset]; eqb_lits).

(** [sync_state] on the task's hash ([RedisManager.update_state] with
    [extra_info=data]): afterwards [status], [worker_id] and [last_update]
    hold the new values; [retry_count] is the one in [data] for a
    [retrying] payload and 0 otherwise (so a final [completed] or [failed]
    resets it); [result] or [error] is written when the payload has it;
    any other field, and the hash of any other task, keeps its value; and
    exactly one [(task_id, status)] message is appended to what was
    published. *)
Theorem sync_state_fields s now w t status d :
  let s' := sync_state s now w t status d in
  alookup (get_state s' t) "status" = Some (VS status) /\
  alookup (get_state s' t) "worker_id" = Some (VS w) /\
  alookup (get_state s' t) "last_update" = Some (VN now) /\
  alookup (get_state s' t) "retry_count" =
    Some (VN (match d with Worker.DRetry n => Z.of_nat n | _ => 0%Z end)) /\
  (forall r, d = Worker.DResult r -> alookup (get_state s' t) "result" = Some (VS r)) /\
  (forall m, d = Worker.DError m -> alookup (get_state s' t) "error" = Some (VS m)) /\
  (forall f, ~ In f ["status"; "last_update"; "retry_count"; "worker_id"; "result"; "error"] ->
     alookup (get_state s' t) f = alookup (get_state s t) f) /\
  (forall t', t' <> t -> get_state s' t' = get_state s t') /\
  published s' = (published s ++ [(t, status)])%list.
Proof.
  cbv zeta. unfold sync_state.
  assert (Hpub : published (update_state s now w t status 0 (data_dict d))
                 = (published s ++ [(t, status)])%list) by reflexivity.
  rewrite !get_state_update, String.eqb_refl.
  set (h := get_state s t).
  split; [|split; [|split; [|split; [|split; [|split; [|split; [|split]]]]]]].
  1-4: (destruct d; norm_mapping; rewrite ?alookup_aset; eqb_lits; reflexivity).
  - intros r Hd. subst d. norm_mapping. rewrite ?alookup_aset. eqb_lits. reflexivity.
  - intros m Hd. subst d. norm_mapping. rewrite ?alookup_aset. eqb_lits. reflexivity.
  - intros f Hf.
    assert (Hne : forall g, In g ["status"; "last_update"; "retry_count"; "worker_id";
                                 "result"; "error"] -> String.eqb g f = false).
    { intros g Hg. apply String.eqb_neq. intro; subst; contradiction. }
    destruct d; norm_mapping; rewrite ?alookup_aset;
      rewrite ?(Hne "status"), ?(Hne "last_update"), ?(Hne "retry_count"),
        ?(Hne "worker_id"), ?(Hne "result"), ?(Hne "error") by (simpl; tauto);
      reflexivity.
  - intros t' Hne. rewrite get_state_update.
    destruct (String.eqb_spec t' t); [contradiction|reflexivity].
  - exact Hpub.
Qed.

(** Once [sync_state] has recorded [completed] for a task, a pass that
    reads that state ([state.get('status') == 'completed']) only
    acknowledges the record: no lock, no Executor call, no publication. *)
Theorem completed_state_short_circuits s now w t d e max_retries raw_json
    (Hread : Worker.stored_status e = status_of (get_state (sync_state s now w t "completed" d) t)) :
  Worker.handle_task e max_retries raw_json = ([Worker.EvGetState; Worker.EvAck raw_json], false).
Proof.
  assert (Hst : status_of (get_state (sync_state s now w t "completed" d) t) = Some "completed").
  { unfold status_of, sync_state. rewrite get_state_update, String.eqb_refl.
    destruct d; norm_mapping; rewrite ?alookup_aset; eqb_lits; reflexivity. }
  unfold Worker.handle_task. rewrite Hread, Hst. reflexivity.
Qed.

Lemma completed_state_short_circuits_witness :
  Worker.handle_task
    (Worker.mkEnv (status_of (get_state (sync_state (mkS (fun _ => []) []) 5 "w1" "t1"
                     "completed" (Worker.DResult "ok")) "t1"))
       true true (fun _ => inl "ok") None) 3 "t1"
  = ([Worker.EvGetState; Worker.EvAck "t1"], false).
Proof.
  exact (completed_state_short_circuits (mkS (fun _ => []) []) 5 "w1" "t1"
           (Worker.DResult "ok")
           (Worker.mkEnv (status_of (get_state (sync_state (mkS (fun _ => []) []) 5 "w1" "t1"
                     "completed" (Worker.DResult "ok")) "t1"))
              true true (fun _ => inl "ok") None) 3 "t1" eq_refl).
Defined.

(** The hash write of [RedisManager.heartbeat] touches only the
    [last_update] field of its own task: the hash of every other task is
    unchanged, the status and every other field of its own task are
    unchanged, nothing is published, and an empty task id writes nothing. *)
Theorem heartbeat_state_only_last_update s now t :
  (forall t', t' <> t -> get_state (heartbeat_state s now t) t' = get_state s t') /\
  (forall t' f, f <> "last_update" ->
     alookup (get_state (heartbeat_state s now t) t') f = alookup (get_state s t') f) /\
  (forall t', status_of (get_state (heartbeat_state s now t) t') = status_of (get_state s t')) /\
  published (heartbeat_state s now t) = published s /\
  (t = "" -> heartbeat_state s now t = s).
Proof.
  assert (Hf : forall t' f, f <> "last_update" ->
     alookup (get_state (heartbeat_state s now t) t') f = alookup (get_state s t') f).
  { intros t' f Hf. unfold heartbeat_state. destruct (String.eqb t "") ; [reflexivity|].
    unfold get_state, set_hash. cbn [hashes].
    destruct (String.eqb_spec ("task:" ++ t' ++ ":state") ("task:" ++ t ++ ":state"))
      as [Heq|]; [|reflexivity].
    rewrite alookup_aset, <- Heq.
    destruct (String.eqb_spec "last_update" f); [congruence|reflexivity]. }
  split.
  { intros t' Hne. unfold heartbeat_state. destruct (String.eqb t ""); [reflexivity|].
    unfold get_state, set_hash. cbn [hashes].
    destruct (String.eqb_spec ("task:" ++ t' ++ ":state") ("task:" ++ t ++ ":state"))
      as [Heq|]; [|reflexivity].
    exfalso. apply Hne. now apply state_key_inj. }
  split; [exact Hf|]. split.
  - intro t'. unfold status_of. rewrite Hf by discriminate. reflexivity.
  - split.
    + unfold heartbeat_state. destruct (String.eqb t ""); reflexivity.
    + intro Ht. subst t. reflexivity.
Qed.

End StateExtras.
